(** * Classical ciphers of [utils/ciphers.ts]: a shallow embedding and its properties

    The four ciphers (Caesar, Rail Fence, columnar transposition, Playfair) are
    embedded as functions on JavaScript strings, that is on lists of UTF-16
    code units.  A [throw] is a value [Err e]; the mutable grids are threaded
    through the loops as explicit state. *)

From Stdlib Require Import ZArith QArith Qround Lia Zify ZifyNat String Ascii.
From stdpp Require Import base tactics numbers option list.

Set Default Proof Using "Type".

(** [lia] reads quotients and remainders by their defining equations. *)
Ltac Zify.zify_post_hook ::= Z.to_euclidean_division_equations.

(** ** JavaScript strings *)

(** A string is its sequence of UTF-16 code units; [s.length] is [length s] and
    [s[i]] is [s !! i] ([None] is [undefined]). *)
Abbreviation codeunit := Z (only parsing).
Abbreviation jsstring := (list Z) (only parsing).

(** A literal of the source, unit by unit. *)
Definition str (s : string) : jsstring :=
  map (λ a, Z.of_N (N_of_ascii a)) (list_ascii_of_string s).

(** What string concatenation makes of a value that may be [undefined]. *)
Definition toStr (v : option codeunit) : jsstring :=
  match v with
  | Some c => [c]
  | None => str "undefined"
  end.

(** ** Errors *)

(** One constructor per [throw new Error(...)] of the source, and [TypeError]
    for a property access on [undefined]. *)
Inductive error : Type :=
  | CaesarKeyError
  | RailFenceKeyError
  | TranspositionKeyError
  | PlayfairNoLetters
  | PlayfairKeyError
  | PlayfairDecryptNoLetters
  | PlayfairDecryptOddLength
  | CharacterNotFound (char : option codeunit)
  | TypeError
  | RangeError.

Inductive result (A : Type) : Type :=
  | Ok (a : A)
  | Err (e : error).
Arguments Ok {A} a.
Arguments Err {A} e.

#[global] Instance result_ret : MRet result := λ A a, Ok a.
#[global] Instance result_bind : MBind result := λ A B f m,
  match m with
  | Ok a => f a
  | Err e => Err e
  end.

(** A loop that may throw: the state is threaded through the iterations and
    the first error ends it. *)
Fixpoint foldM {S A : Type} (f : S → A → result S) (s : S) (l : list A) : result S :=
  match l with
  | [] => Ok s
  | a :: l' => s' ← f s a; foldM f s' l'
  end.

Inductive Mode : Type := Encrypt | Decrypt.

(** Runs the binds of the error monad, and nothing else. *)
Ltac step := cbn [mbind result_bind mret result_ret fst snd].

(** ** Grids *)

(** A two-dimensional array is a list of rows.  [tab numRows numCols f] is the
    array whose cell at [(r, c)] is [f r c]; [upd f r c v] is [f] with the
    cell at [(r, c)] changed to [v].  The arrays of the ciphers are of this
    form all along, which is how the proofs follow them. *)
Definition tab {A : Type} (numRows numCols : nat) (f : nat → nat → A) : list (list A) :=
  (λ r, f r <$> seq 0 numCols) <$> seq 0 numRows.

Definition upd {A : Type} (f : nat → nat → A) (r c : nat) (v : A) : nat → nat → A :=
  λ r' c', if bool_decide (r' = r ∧ c' = c) then v else f r' c'.

(** ** JavaScript numbers *)

(** A [number] is NaN, an infinity, or a finite value.  A finite value that is a
    whole number is [Int z]; any other finite value is [Frac q], with [q] the
    rational it denotes.  Arithmetic on [Int] is the arithmetic of [Z], which
    is what binary64 computes on the whole numbers the ciphers produce (every
    intermediate value is below 2^53 in magnitude once [% 26] has been taken,
    and [%] itself is exact).  Arithmetic on [Frac] is exact rational
    arithmetic: it is binary64's whenever the exact result is representable,
    as it is at the fraction 3/2; where it is not, binary64 rounds and these
    operations do not, and nothing below is stated about such a value.  The
    same holds for a sum of two whole numbers of any size: it is binary64's
    when the sum is a binary64 value ([isBinary64]). *)
Module JSNumber.

Inductive number : Type :=
  | NaN
  | Infinity (negative : bool)
  | Int (z : Z)
  | Frac (q : Q).

Definition isNaN (x : number) : bool :=
  match x with
  | NaN => true
  | _ => false
  end.

(** [Number.isInteger]. *)
Definition isInteger (x : number) : bool :=
  match x with
  | Int _ => true
  | Frac q => bool_decide (Qden (Qred q) = 1%positive)
  | _ => false
  end.

(** Rounds toward zero. *)
Definition Qtrunc (q : Q) : Z := Z.quot (Qnum q) (Z.pos (Qden q)).

Definition ofQ (q : Q) : number :=
  let r := Qred q in
  if bool_decide (Qden r = 1%positive) then Int (Qnum r) else Frac r.

Definition neg (x : number) : number :=
  match x with
  | NaN => NaN
  | Infinity s => Infinity (negb s)
  | Int z => Int (- z)
  | Frac q => Frac (Qopp q)
  end.

Definition add (x y : number) : number :=
  match x, y with
  | NaN, _ | _, NaN => NaN
  | Infinity s, Infinity s' => if Bool.eqb s s' then Infinity s else NaN
  | Infinity s, _ | _, Infinity s => Infinity s
  | Int a, Int b => Int (a + b)
  | Int a, Frac q => ofQ (Qplus (inject_Z a) q)
  | Frac q, Int b => ofQ (Qplus q (inject_Z b))
  | Frac p, Frac q => ofQ (Qplus p q)
  end.

Definition sub (x y : number) : number := add x (neg y).

Definition Qrem (p q : Q) : Q :=
  Qminus p (Qmult q (inject_Z (Qtrunc (Qdiv p q)))).

(** The [%] operator: the sign of the result is the dividend's. *)
Definition rem (x y : number) : number :=
  match x, y with
  | NaN, _ | _, NaN => NaN
  | Infinity _, _ => NaN
  | _, Infinity _ => x
  | Int a, Int b => if (b =? 0)%Z then NaN else Int (Z.rem a b)
  | Int a, Frac q => if Qeq_bool q 0 then NaN else ofQ (Qrem (inject_Z a) q)
  | Frac p, Int b => if (b =? 0)%Z then NaN else ofQ (Qrem p (inject_Z b))
  | Frac p, Frac q => if Qeq_bool q 0 then NaN else ofQ (Qrem p q)
  end.

(** The whole numbers that are binary64 values: 0, and those of magnitude
    [m * 2^e] with [m] odd and below [2^53], themselves below [2^1024]. *)
Fixpoint oddPart (p : positive) : positive :=
  match p with
  | xO p' => oddPart p'
  | _ => p
  end.

Definition isBinary64 (z : Z) : bool :=
  match z with
  | Z0 => true
  | Zpos p | Zneg p => ((Z.pos (oddPart p) <? 2 ^ 53) && (Z.pos p <? 2 ^ 1024))%Z
  end.

(** [String.fromCharCode(x)] for one argument: the code unit ToUint16(x). *)
Definition fromCharCode (x : number) : codeunit :=
  match x with
  | NaN | Infinity _ => 0
  | Int z => z mod 65536
  | Frac q => Qtrunc q mod 65536
  end%Z.

End JSNumber.
Export JSNumber.

(** ** Caesar cipher *)

Module Caesar.
#[local] Open Scope Z_scope.

(** [char.match(/[a-z]/i)]: without the [u] flag, case-insensitive matching
    never maps a code unit of 128 or more to one below 128, so the class
    matches the 52 ASCII letters and nothing else. *)
Definition isLetter (c : codeunit) : bool :=
  (65 <=? c) && (c <=? 90) || (97 <=? c) && (c <=? 122).

(** The two cases of a letter. *)
Definition isUpper (c : codeunit) : bool := (65 <=? c) && (c <=? 90).
Definition isLower (c : codeunit) : bool := (97 <=? c) && (c <=? 122).

Definition shiftChar (s : number) (char : codeunit) : codeunit :=
  if isLetter char then
    let code := char in
    let base := if (65 <=? code) && (code <=? 90) then 65 else 97 in
    fromCharCode (add (rem (add (sub (Int code) (Int base)) s) (Int 26)) (Int base))
  else char.

Definition normalize (shift : number) : number :=
  rem (add (rem shift (Int 26)) (Int 26)) (Int 26).

Definition effectiveShift (shift : number) (mode : Mode) : number :=
  match mode with
  | Encrypt => normalize shift
  | Decrypt => rem (sub (Int 26) (normalize shift)) (Int 26)
  end.

Definition caesarCipher (text : jsstring) (shift : number) (mode : Mode)
  : result jsstring :=
  if isNaN shift then Err CaesarKeyError
  else
    let s := effectiveShift shift mode in
    Ok (map (shiftChar s) text).

End Caesar.

(** ** Rail Fence cipher *)

(** The number of rails is taken over the whole numbers, [isNaN] of which is
    false; the guard of the source is kept as it is written. *)
Module RailFence.
#[local] Open Scope Z_scope.

Definition isHighSurrogate (c : codeunit) : bool := (55296 <=? c) && (c <=? 56319).
Definition isLowSurrogate (c : codeunit) : bool := (56320 <=? c) && (c <=? 57343).

(** The values [for (const char of text)] binds: the string iterator yields
    code points, so a high surrogate followed by a low surrogate comes out
    as one two-unit string; any other unit comes out alone. *)
Fixpoint codePoints (text : jsstring) : list jsstring :=
  match text with
  | [] => []
  | h :: rest =>
      match rest with
      | l :: rest' =>
          if isHighSurrogate h && isLowSurrogate l
          then [h; l] :: codePoints rest'
          else [h] :: codePoints rest
      | [] => [[h]]
      end
  end.

Record cursor : Type := { rail : Z; direction : Z }.

Definition start : cursor := {| rail := 0; direction := 1 |}.

(** [rail += direction; if (rail === 0 || rail === rails - 1) direction *= -1]. *)
Definition advance (rails : Z) (c : cursor) : cursor :=
  let rail' := rail c + direction c in
  {| rail := rail';
     direction := if (rail' =? 0) || (rail' =? rails - 1)
                  then direction c * -1 else direction c |}.

(** [fence[rail]], on which a method or an index is used next: [undefined]
    there throws a TypeError. *)
Definition rowAt {A : Type} (fence : list A) (rail : Z) : result A :=
  if rail <? 0 then Err TypeError
  else match fence !! Z.to_nat rail with
       | Some row => Ok row
       | None => Err TypeError
       end.

Definition setRow {A : Type} (fence : list A) (rail : Z) (row : A) : list A :=
  <[Z.to_nat rail := row]> fence.

Definition pushChar (rails : Z) (st : list (list jsstring) * cursor) (char : jsstring)
  : result (list (list jsstring) * cursor) :=
  let '(fence, cur) := st in
  row ← rowAt fence (rail cur);
  Ok (setRow fence (rail cur) (row ++ [char]), advance rails cur).

(** [Array.from({ length }, () => fill)] for a whole [length]: the array is
    constructed with that length before it is filled, and the constructor
    throws a RangeError when the length is no array length, that is when it
    is above [2^32 - 1] (below 0 it is taken for 0). *)
Definition maxArrayLength : Z := 4294967295.

Definition arrayFrom {A : Type} (length : Z) (fill : A) : result (list A) :=
  if maxArrayLength <? length then Err RangeError
  else Ok (replicate (Z.to_nat length) fill).

Definition railFenceEncrypt (text : jsstring) (rails : Z) : result jsstring :=
  if isNaN (Int rails) || (rails <? 2) then Err RailFenceKeyError
  else
    fence ← arrayFrom rails [];
    '(fence, _) ← foldM (pushChar rails) (fence, start) (codePoints text);
    Ok (concat (concat fence)).

(** A cell of the decryption fence: [None] is [null], [Some c] a one-unit
    string; the marker is the string of the one unit 42 (an asterisk). *)
Abbreviation cell := (option Z) (only parsing).
Definition marker : cell := Some 42.

Definition markCell (rails : Z) (st : list (list cell) * cursor) (i : nat)
  : result (list (list cell) * cursor) :=
  let '(fence, cur) := st in
  row ← rowAt fence (rail cur);
  Ok (setRow fence (rail cur) (<[i := marker]> row), advance rails cur).

(** The body of the two nested loops of the second pass, at row [r] and
    column [c]; [cipherText[index]] is defined under the guard. *)
Definition fillCell (cipherText : jsstring) (r : nat)
    (st : list (list cell) * nat) (c : nat) : result (list (list cell) * nat) :=
  let '(fence, index) := st in
  row ← rowAt fence (Z.of_nat r);
  if bool_decide (row !! c = Some marker) && (index <? length cipherText)%nat
  then Ok (<[r := <[c := cipherText !! index]> row]> fence, S index)
  else Ok (fence, index).

Definition fillRow (cipherText : jsstring) (st : list (list cell) * nat) (r : nat)
  : result (list (list cell) * nat) :=
  foldM (fillCell cipherText r) st (seq 0 (length cipherText)).

(** [result += fence[rail][i]]: [null] and [undefined] are spelled out. *)
Definition cellText (v : option cell) : jsstring :=
  match v with
  | Some (Some c) => [c]
  | Some None => str "null"
  | None => str "undefined"
  end.

Definition readCell (rails : Z) (fence : list (list cell))
    (st : jsstring * cursor) (i : nat) : result (jsstring * cursor) :=
  let '(out, cur) := st in
  row ← rowAt fence (rail cur);
  Ok (out ++ cellText (row !! i), advance rails cur).

Definition railFenceDecrypt (cipherText : jsstring) (rails : Z) : result jsstring :=
  if isNaN (Int rails) || (rails <? 2) then Err RailFenceKeyError
  else if bool_decide (cipherText = []) then Ok []
  else
    let len := length cipherText in
    fence ← arrayFrom rails (replicate len (None : cell));
    '(fence, _) ← foldM (markCell rails) (fence, start) (seq 0 len);
    '(fence, _) ← foldM (fillRow cipherText) (fence, 0%nat) (seq 0 (Z.to_nat rails));
    '(out, _) ← foldM (readCell rails fence) ([], start) (seq 0 len);
    Ok out.

(** *** The zig-zag, as the proofs describe it *)

(** The cursor after [i] steps, and the rail it is on. *)
Definition cursorAt (rails : Z) (i : nat) : cursor := Nat.iter i (advance rails) start.

Definition railAt (rails : Z) (i : nat) : nat := Z.to_nat (rail (cursorAt rails i)).

(** The characters of [l] that the zig-zag puts on rail [j], when the first
    character of [l] is at position [i0]. *)
Fixpoint onRail (rails : Z) (j i0 : nat) (l : jsstring) : jsstring :=
  match l with
  | [] => []
  | c :: l' =>
      (if bool_decide (railAt rails i0 = j) then [c] else []) ++ onRail rails j (S i0) l'
  end.

(** The number of the positions [i0], ..., [i0 + m - 1] that are on rail [j],
    and the number of the positions below [n] on the rails above rail [j]. *)
Definition countOn (rails : Z) (j i0 m : nat) : nat :=
  length (filter (λ i, railAt rails i = j) (seq i0 m)).

Definition offsetOf (rails : Z) (n j : nat) : nat :=
  sum_list ((λ j', countOn rails j' 0 n) <$> seq 0 j).

(** The ciphertext: rail after rail. *)
Definition railsOf (rails : Z) (text : jsstring) : jsstring :=
  concat ((λ j, onRail rails j 0 text) <$> seq 0 (Z.to_nat rails)).

(** The index into the ciphertext that the second pass of the decryption has
    reached at row [j] and column [i], and the fence when the scan of the
    second pass stands at row [j0] and column [i0]: the marked cells before it
    are filled, the others still hold the marker. *)
Definition positionOf (rails : Z) (n j i : nat) : nat :=
  offsetOf rails n j + countOn rails j 0 i.

Definition scanned (rails : Z) (cipherText : jsstring) (j0 i0 j i : nat) : cell :=
  if bool_decide (railAt rails i = j) then
    if bool_decide (j < j0 ∨ (j = j0 ∧ i < i0))%nat
    then cipherText !! positionOf rails (length cipherText) j i
    else marker
  else None.

(** A text in which every code unit is a character of its own. *)
Definition unitWise (text : jsstring) : Prop :=
  codePoints text = (λ c, [c]) <$> text.

End RailFence.

(** ** What the ciphers take from the JavaScript runtime *)

(** [String.prototype.toUpperCase] follows the Unicode case mappings (it may
    even lengthen a string) and [localeCompare] the collation of the host's
    locale.  Neither is code of the repository: both are parameters. *)
Class Runtime : Type := {
  toUpperCase : jsstring → jsstring;
  (** [a.localeCompare(b)] on two one-unit strings *)
  localeCompare : codeunit → codeunit → Z
}.

Definition isAZ (c : codeunit) : bool := (65 <=? c)%Z && (c <=? 90)%Z.

(** [.replace(/[^A-Z]/g, "")]: without the [u] flag the class is matched
    against single code units. *)
Definition stripNonAZ (s : jsstring) : jsstring := filter (λ c, isAZ c) s.

(** [.replace(/J/g, "I")]. *)
Definition replaceJ (s : jsstring) : jsstring :=
  map (λ c, if (c =? 74)%Z then 73%Z else c) s.

(** What the one property the proofs about Playfair need says: upper-casing
    leaves a string of the letters A to Z as it is. *)
Class RuntimeSpec (RT : Runtime) : Prop := {
  toUpperCase_AZ : ∀ s : jsstring, Forall (λ c, isAZ c) s → toUpperCase s = s
}.

(** ** Columnar transposition cipher *)

Module Transposition.
Section WithRuntime.
Context {RT : Runtime}.

Record keyEntry : Type := { char : codeunit; index : nat }.

(** [a.char.localeCompare(b.char) || a.index - b.index]. *)
Definition compareEntries (a b : keyEntry) : Z :=
  let d := localeCompare (char a) (char b) in
  if (d =? 0)%Z then (Z.of_nat (index a) - Z.of_nat (index b))%Z else d.

(** [Array.prototype.sort] is stable; with a comparator that is a strict
    total order (as this one is: the index breaks every tie) every sorting
    procedure returns the same array.  Here: insertion from the right. *)
Fixpoint insertEntry (x : keyEntry) (l : list keyEntry) : list keyEntry :=
  match l with
  | [] => [x]
  | y :: l' =>
      if (compareEntries x y <=? 0)%Z then x :: y :: l' else y :: insertEntry x l'
  end.

Definition sortEntries (l : list keyEntry) : list keyEntry :=
  foldr insertEntry [] l.

Definition sanitizeKey (key : jsstring) : jsstring := stripNonAZ (toUpperCase key).

Definition keyOrder (sanitizedKey : jsstring) : list keyEntry :=
  sortEntries (imap (λ index char, {| char := char; index := index |}) sanitizedKey).

(** [Math.ceil(len / numCols)]: the quotient of two lengths is computed
    by binary64 without ever rounding a fraction to a whole number. *)
Definition ceilDiv (len numCols : nat) : nat :=
  if (len mod numCols =? 0)%nat then len / numCols else S (len / numCols).

(** The grid: a cell is the empty string until a character is written. *)
Abbreviation grid := (list (list (list Z))) (only parsing).

Definition newGrid (numRows numCols : nat) : grid :=
  replicate numRows (replicate numCols []).

(** [grid[row][col] = v]; the column is below [numCols] wherever the source
    writes, so the row is never extended. *)
Definition setCell (g : grid) (row col : nat) (v : jsstring) : result grid :=
  match g !! row with
  | Some cells => Ok (<[row := <[col := v]> cells]> g)
  | None => Err TypeError
  end.

(** [grid[row][col]]; [None] is [undefined]. *)
Definition getCell (g : grid) (row col : nat) : result (option jsstring) :=
  match g !! row with
  | Some cells => Ok (cells !! col)
  | None => Err TypeError
  end.

Definition cellText (v : option jsstring) : jsstring :=
  default (str "undefined") v.

Definition fillRowMajor (numCols : nat) (g : grid) (ic : nat * codeunit) : result grid :=
  let '(i, c) := ic in setCell g (i / numCols) (i mod numCols) [c].

Definition readCellIfSet (g : grid) (colIndex : nat) (out : jsstring) (row : nat)
  : result jsstring :=
  v ← getCell g row colIndex;
  if bool_decide (v ≠ Some []) then Ok (out ++ cellText v) else Ok out.

Definition readColumn (g : grid) (numRows : nat) (out : jsstring) (k : keyEntry)
  : result jsstring :=
  foldM (readCellIfSet g (index k)) out (seq 0 numRows).

Definition columnarTranspositionEncrypt (text key : jsstring) : result jsstring :=
  let sanitizedKey := sanitizeKey key in
  if bool_decide (sanitizedKey = []) then Err TranspositionKeyError
  else
    let numCols := length sanitizedKey in
    let numRows := ceilDiv (length text) numCols in
    let keyArr := keyOrder sanitizedKey in
    g ← foldM (fillRowMajor numCols) (newGrid numRows numCols)
              (zip (seq 0 (length text)) text);
    foldM (readColumn g numRows) [] keyArr.

(** The number of cells of the column at [colIndex] that hold a character. *)
Definition colLen (numRows fullCols colIndex : nat) : nat :=
  if (fullCols =? 0)%nat || (colIndex <? fullCols)%nat then numRows else numRows - 1.

Definition writeCell (cipherText : jsstring) (colIndex : nat)
    (st : grid * nat) (row : nat) : result (grid * nat) :=
  let '(g, charIndex) := st in
  if (charIndex <? length cipherText)%nat then
    g' ← setCell g row colIndex (toStr (cipherText !! charIndex));
    Ok (g', S charIndex)
  else Ok (g, charIndex).

Definition writeColumn (cipherText : jsstring) (numRows fullCols : nat)
    (st : grid * nat) (k : keyEntry) : result (grid * nat) :=
  let colIndex := index k in
  foldM (writeCell cipherText colIndex) st
        (seq 0 (colLen numRows fullCols colIndex)).

Definition readCellAt (g : grid) (row : nat) (out : jsstring) (col : nat)
  : result jsstring :=
  v ← getCell g row col; Ok (out ++ cellText v).

Definition readRow (g : grid) (numCols : nat) (out : jsstring) (row : nat)
  : result jsstring :=
  foldM (readCellAt g row) out (seq 0 numCols).

Definition columnarTranspositionDecrypt (cipherText key : jsstring) : result jsstring :=
  let sanitizedKey := sanitizeKey key in
  if bool_decide (sanitizedKey = []) then Err TranspositionKeyError
  else
    let numCols := length sanitizedKey in
    let len := length cipherText in
    let numRows := ceilDiv len numCols in
    let fullCols := (len mod numCols)%nat in
    let keyArr := keyOrder sanitizedKey in
    '(g, _) ← foldM (writeColumn cipherText numRows fullCols)
                    (newGrid numRows numCols, 0%nat) keyArr;
    foldM (readRow g numCols) [] (seq 0 numRows).

(** *** The grid, as the proofs describe it *)

(** The cell at row [r] and column [c] once [text] is laid out row by row in
    [n] columns: one character, or the empty string past the end. *)
Definition cellOf (text : jsstring) (n r c : nat) : jsstring :=
  option_list (text !! (r * n + c)).

(** The characters of column [c] of a grid of [R] rows, top to bottom. *)
Definition column (text : jsstring) (n R c : nat) : jsstring :=
  concat ((λ r, cellOf text n r c) <$> seq 0 R).

(** The grid in which the columns [cols] are written and the others empty. *)
Definition cellsOf (text : jsstring) (n : nat) (cols : list nat) (r c : nat) : jsstring :=
  if bool_decide (c ∈ cols) then cellOf text n r c else [].

(** The columns of the grid of [text] in the order [ks]: the ciphertext. *)
Definition columnsOf (text : jsstring) (n : nat) (ks : list keyEntry) : jsstring :=
  concat ((λ k, column text n (ceilDiv (length text) n) (index k)) <$> ks).

End WithRuntime.
End Transposition.

(** ** Playfair cipher *)

Module Playfair.
Section WithRuntime.
Context {RT : Runtime}.

Definition sanitize (text : jsstring) : jsstring :=
  stripNonAZ (replaceJ (toUpperCase text)).

Definition letterX : jsstring := str "X".

(** One iteration of the loop that builds [prepared]. *)
Definition prepareStep (res prepared : jsstring) (i : nat) : jsstring :=
  let prepared := prepared ++ toStr (res !! i) in
  if bool_decide (length prepared mod 2 ≠ 0)%nat then
    if (i + 1 <? length res)%nat && bool_decide (res !! i = res !! (i + 1)%nat)
    then prepared ++ letterX
    else prepared
  else prepared.

Definition preparePlayfairText (text : jsstring) : result jsstring :=
  let res := sanitize text in
  if bool_decide (res = []) then Err PlayfairNoLetters
  else
    let prepared := foldl (prepareStep res) [] (seq 0 (length res)) in
    if bool_decide (length prepared mod 2 ≠ 0)%nat
    then Ok (prepared ++ letterX)
    else Ok prepared.

Definition alphabet : jsstring := str "ABCDEFGHIKLMNOPQRSTUVWXYZ".

(** [Array.from(new Set(chars))]: a Set keeps the order of first insertion. *)
Definition setAdd (seen : jsstring) (c : codeunit) : jsstring :=
  if bool_decide (c ∈ seen) then seen else seen ++ [c].

Definition uniqueOf (chars : jsstring) : jsstring := foldl setAdd [] chars.

(** [arr.slice(from, to)] for [0 <= from <= to]. *)
Definition slice (from to : nat) (l : jsstring) : jsstring :=
  take (to - from) (drop from l).

Definition createPlayfairMatrix (key : jsstring) : result (list jsstring) :=
  let sanitizedKey := stripNonAZ (replaceJ (toUpperCase key) ++ alphabet) in
  if (length sanitizedKey =? 0)%nat then Err PlayfairKeyError
  else
    let uniqueChars := uniqueOf sanitizedKey in
    Ok (map (λ i, slice (i * 5) (i * 5 + 5) uniqueChars) (seq 0 5)).

(** What [createPlayfairMatrix] computes, in two steps: the distinct letters of
    the sanitized key followed by the alphabet, and their five rows. *)
Definition uniqueChars (key : jsstring) : jsstring :=
  uniqueOf (sanitize key ++ alphabet).

Definition rowsOf (u : jsstring) : list jsstring :=
  map (λ i, slice (i * 5) (i * 5 + 5) u) (seq 0 5).

(** The alphabet row by row. *)
Definition plainGrid : list jsstring :=
  [str "ABCDE"; str "FGHIK"; str "LMNOP"; str "QRSTU"; str "VWXYZ"].

(** [matrix[r][c]]; the matrix always has its five rows, a row may be short
    in principle, and then the cell is [undefined]. *)
Definition at_ (matrix : list jsstring) (r c : nat) : option codeunit :=
  matrix !! r ≫= (.!! c).

(** The 25 positions in the order the two loops of [findPos] visit them. *)
Definition positions : list (nat * nat) :=
  r ← seq 0 5; c ← seq 0 5; [(r, c)].

Definition findPos (matrix : list jsstring) (char : option codeunit)
  : result (nat * nat) :=
  match list_find (λ p, at_ matrix p.1 p.2 = char) positions with
  | Some (_, p) => Ok p
  | None => Err (CharacterNotFound char)
  end.

(** The pairs [(prepared[i], prepared[i + 1])] for [i = 0, 2, 4, ...] below
    the length. *)
Fixpoint digraphs (prepared : jsstring) : list (option codeunit * option codeunit) :=
  match prepared with
  | [] => []
  | a :: rest =>
      match rest with
      | [] => [(Some a, None)]
      | b :: rest' => (Some a, Some b) :: digraphs rest'
      end
  end.

(** [x + y] on two cells of the matrix: a concatenation, unless both are
    [undefined], the sum of which is the number NaN. *)
Definition jsPlus (x y : option codeunit) : jsstring :=
  match x, y with
  | None, None => str "NaN"
  | _, _ => toStr x ++ toStr y
  end.

Definition substitute (matrix : list jsstring) (mode : Mode)
    (out : jsstring) (pair : option codeunit * option codeunit) : result jsstring :=
  '(r1, c1) ← findPos matrix pair.1;
  '(r2, c2) ← findPos matrix pair.2;
  if (r1 =? r2)%nat then
    let shift := match mode with Encrypt => 1 | Decrypt => 4 end in
    Ok (out ++ jsPlus (at_ matrix r1 ((c1 + shift) mod 5))
                    (at_ matrix r2 ((c2 + shift) mod 5)))
  else if (c1 =? c2)%nat then
    let shift := match mode with Encrypt => 1 | Decrypt => 4 end in
    Ok (out ++ jsPlus (at_ matrix ((r1 + shift) mod 5) c1)
                    (at_ matrix ((r2 + shift) mod 5) c2))
  else
    Ok (out ++ jsPlus (at_ matrix r1 c2) (at_ matrix r2 c1)).

(** The text the substitution runs over. *)
Definition preparedText (text : jsstring) (mode : Mode) : result jsstring :=
  match mode with
  | Encrypt => preparePlayfairText text
  | Decrypt => Ok (sanitize text)
  end.

Definition playfairCipher (text key : jsstring) (mode : Mode) : result jsstring :=
  matrix ← createPlayfairMatrix key;
  prepared ← preparedText text mode;
  _ ← match mode with
      | Decrypt =>
          if bool_decide (prepared = []) then Err PlayfairDecryptNoLetters
          else if bool_decide (length prepared mod 2 ≠ 0)%nat
               then Err PlayfairDecryptOddLength
               else Ok ()
      | Encrypt => Ok ()
      end;
  foldM (substitute matrix mode) [] (digraphs prepared).

End WithRuntime.

(** A pair of the prepared text holds two different letters, or two X. *)
Definition separated (d : option Z * option Z) : Prop :=
  d.1 = d.2 → d = (Some 88%Z, Some 88%Z).

(** [filled s p]: the string [p] is the string [s] with letters X put in,
    anywhere and any number of them. *)
Inductive filled : jsstring → jsstring → Prop :=
  | filled_nil : filled [] []
  | filled_keep (c : codeunit) (s p : jsstring) : filled s p → filled (c :: s) (c :: p)
  | filled_X (s p : jsstring) : filled s p → filled s (88%Z :: p).

(** The state of the loop before iteration [k]: an even prefix of separated
    pairs, then nothing or the one letter [res[k - 1]], which differs from
    the next one; so far the first [k] letters with letters X put in. *)
Definition preparing (res : list Z) (k : nat) (p : list Z) : Prop :=
  ∃ e tl, p = e ++ tl ∧ length e mod 2 = 0 ∧ Forall separated (digraphs e) ∧
    (tl = [] ∨ ∃ b, tl = [b] ∧ ∀ c, res !! k = Some c → b ≠ c) ∧
    k ≤ length p ≤ 2 * k ∧ take k res `sublist_of` p ∧ filled (take k res) p.

End Playfair.

(** ** The caller: [validateInput] of [App.tsx] *)

Module App.
Section WithRuntime.
Context {RT : Runtime}.

(** The letters that [validateInput] counts before a Playfair decryption:
    [inputText.toUpperCase().replace(/[^A-Z]/g, "").replace(/J/g, "I")]. *)
Definition charOnly (inputText : jsstring) : jsstring :=
  replaceJ (stripNonAZ (toUpperCase inputText)).

End WithRuntime.
End App.

(** ** A runtime to compute with *)

(** Upper-casing of ASCII and comparison by code unit: what every JavaScript
    engine does on ASCII letters (in the locales that collate them in
    alphabetical order).  Used for the concrete scenarios only. *)
Definition asciiUpper (s : jsstring) : jsstring :=
  map (λ c, if (97 <=? c)%Z && (c <=? 122)%Z then (c - 32)%Z else c) s.

Definition asciiRuntime : Runtime :=
  {| toUpperCase := asciiUpper; localeCompare := λ a b, (a - b)%Z |}.

(** * Properties *)

(** ** Loops and grids *)

Module GridFacts.

Lemma foldM_app {S A : Type} (f : S → A → result S) (s : S) (l k : list A) :
  foldM f s (l ++ k) = s' ← foldM f s l; foldM f s' k.
Proof.
  revert s. induction l as [|a l IH]; intros s; [done|].
  cbn [foldM app]. destruct (f s a); step; [apply IH|done].
Qed.

Lemma tab_lookup {A : Type} (R n : nat) (f : nat → nat → A) (r : nat) :
  r < R → tab R n f !! r = Some (f r <$> seq 0 n).
Proof. intros Hr. unfold tab. by rewrite list_lookup_fmap, lookup_seq_lt. Qed.

Lemma tab_ext {A : Type} (R n : nat) (f g : nat → nat → A) :
  (∀ r c, r < R → c < n → f r c = g r c) → tab R n f = tab R n g.
Proof.
  intros Hfg. unfold tab. apply list_fmap_ext. intros i r [-> Hr]%lookup_seq.
  apply list_fmap_ext. intros j c [-> Hc]%lookup_seq. by apply Hfg.
Qed.

Lemma replicate_tab {A : Type} (n : nat) (x : A) : replicate n x = (λ _, x) <$> seq 0 n.
Proof.
  apply list_eq. intros i. rewrite list_lookup_fmap.
  destruct (decide (i < n)) as [Hi|Hi].
  - by rewrite lookup_replicate_2, lookup_seq_lt.
  - rewrite lookup_seq_ge by lia. by apply lookup_replicate_None; lia.
Qed.

Lemma tab_length {A : Type} (R n : nat) (f : nat → nat → A) : length (tab R n f) = R.
Proof. unfold tab. by rewrite length_fmap, length_seq. Qed.

Lemma tab_replicate {A : Type} (R n : nat) (x : A) :
  replicate R (replicate n x) = tab R n (λ _ _, x).
Proof. unfold tab. by rewrite !replicate_tab. Qed.

(** Writing one cell of a row and the row back. *)
Lemma insert_tab {A : Type} (R n : nat) (f : nat → nat → A) (r c : nat) (v : A) :
  r < R → c < n →
  <[r := <[c := v]> (f r <$> seq 0 n)]> (tab R n f) = tab R n (upd f r c v).
Proof.
  intros Hr Hc. apply list_eq. intros r'. destruct (decide (r' = r)) as [->|Hne].
  - rewrite list_lookup_insert_eq by (rewrite tab_length; lia).
    rewrite tab_lookup by done. f_equal.
    apply list_eq. intros c'. destruct (decide (c' = c)) as [->|Hne].
    + rewrite list_lookup_insert_eq by (rewrite length_fmap, length_seq; lia).
      rewrite list_lookup_fmap, lookup_seq_lt by done. simpl.
      unfold upd. by rewrite bool_decide_eq_true_2.
    + rewrite list_lookup_insert_ne by done. rewrite !list_lookup_fmap.
      destruct (seq 0 n !! c') eqn:E; [|done]. simpl. apply lookup_seq in E as [-> _].
      unfold upd. rewrite bool_decide_eq_false_2; [done|]. by intros [].
  - rewrite list_lookup_insert_ne by done. unfold tab. rewrite !list_lookup_fmap.
    destruct (seq 0 R !! r') eqn:E; [|done]. simpl. apply lookup_seq in E as [-> _].
    f_equal. apply list_fmap_ext. intros _ c' _.
    unfold upd. rewrite bool_decide_eq_false_2; [done|]. by intros [].
Qed.

End GridFacts.
Export GridFacts.

(** ** Caesar *)

Module CaesarFacts.
Import Caesar.
#[local] Open Scope Z_scope.

Lemma rem_rem_mod (z : Z) : Z.rem (Z.rem z 26 + 26) 26 = z mod 26.
Proof.
  pose proof (Z.quot_rem' z 26) as Hz.
  pose proof (Z.rem_bound_abs z 26 ltac:(lia)) as Hb.
  assert (-26 < Z.rem z 26 < 26) as Hr by lia.
  rewrite Z.rem_mod_nonneg by lia.
  rewrite Hz at 2.
  rewrite <- (Z.mod_add (Z.rem z 26 + 26) (Z.quot z 26 - 1) 26) by lia.
  f_equal; lia.
Qed.

Lemma normalize_Int (z : Z) : normalize (Int z) = Int (z mod 26).
Proof. unfold normalize; simpl. by rewrite rem_rem_mod. Qed.

Lemma effectiveShift_Int (z : Z) (mode : Mode) :
  ∃ s, effectiveShift (Int z) mode = Int s ∧ 0 <= s < 26 ∧
       s = match mode with Encrypt => z mod 26 | Decrypt => (26 - z mod 26) mod 26 end.
Proof.
  pose proof (Z.mod_pos_bound z 26 ltac:(lia)).
  destruct mode; unfold effectiveShift; rewrite normalize_Int; simpl.
  - eauto.
  - rewrite Z.rem_mod_nonneg by lia.
    eexists; split; [reflexivity|]. split; [|f_equal; lia].
    apply Z.mod_pos_bound; lia.
Qed.

Lemma shiftChar_Int (s c : Z) :
  0 <= s < 26 →
  shiftChar (Int s) c =
    if isUpper c then (c - 65 + s) mod 26 + 65
    else if isLower c then (c - 97 + s) mod 26 + 97
    else c.
Proof.
  intros Hs. unfold shiftChar, isLetter, isUpper, isLower. cbv zeta.
  destruct ((65 <=? c) && (c <=? 90)) eqn:Hu; simpl.
  - apply andb_true_iff in Hu as [?%Z.leb_le ?%Z.leb_le].
    rewrite Z.rem_mod_nonneg by lia.
    match goal with
    | |- context [?a mod 26] => pose proof (Z.mod_pos_bound a 26 ltac:(lia))
    end.
    rewrite (Z.mod_small (_ + 65) 65536) by lia. do 2 f_equal; lia.
  - destruct ((97 <=? c) && (c <=? 122)) eqn:Hl; simpl; [|done].
    apply andb_true_iff in Hl as [?%Z.leb_le ?%Z.leb_le].
    rewrite Z.rem_mod_nonneg by lia.
    match goal with
    | |- context [?a mod 26] => pose proof (Z.mod_pos_bound a 26 ltac:(lia))
    end.
    rewrite (Z.mod_small (_ + 97) 65536) by lia. do 2 f_equal; lia.
Qed.

Lemma upper_lower_excl (c : Z) : isUpper c = true → isLower c = false.
Proof.
  unfold isUpper, isLower. intros [?%Z.leb_le ?%Z.leb_le]%andb_true_iff.
  apply andb_false_iff. left. apply Z.leb_gt. lia.
Qed.

(** What one character becomes keeps its class. *)
Lemma shiftChar_class (s c : Z) :
  0 <= s < 26 →
  isUpper (shiftChar (Int s) c) = isUpper c ∧ isLower (shiftChar (Int s) c) = isLower c.
Proof.
  intros Hs. rewrite shiftChar_Int by done.
  destruct (isUpper c) eqn:Hu.
  - pose proof (upper_lower_excl c Hu) as Hl. rewrite Hl.
    pose proof (Z.mod_pos_bound (c - 65 + s) 26 ltac:(lia)).
    unfold isUpper, isLower. split.
    + apply andb_true_iff; split; apply Z.leb_le; lia.
    + apply andb_false_iff; left; apply Z.leb_gt; lia.
  - destruct (isLower c) eqn:Hl; [|by rewrite Hu, Hl].
    pose proof (Z.mod_pos_bound (c - 97 + s) 26 ltac:(lia)).
    unfold isUpper, isLower. split.
    + apply andb_false_iff; right; apply Z.leb_gt; lia.
    + apply andb_true_iff; split; apply Z.leb_le; lia.
Qed.

Lemma shiftChar_inverse (z c : Z) :
  shiftChar (Int ((26 - z mod 26) mod 26)) (shiftChar (Int (z mod 26)) c) = c.
Proof.
  pose proof (Z.mod_pos_bound z 26 ltac:(lia)) as Hz.
  pose proof (Z.mod_pos_bound (26 - z mod 26) 26 ltac:(lia)) as Hz'.
  destruct (shiftChar_class (z mod 26) c Hz) as [Hu Hl].
  rewrite (shiftChar_Int _ (shiftChar _ c)) by done. rewrite Hu, Hl.
  rewrite shiftChar_Int by done.
  destruct (isUpper c) eqn:Hcu; [|destruct (isLower c) eqn:Hcl; [|done]].
  - unfold isUpper in Hcu. apply andb_true_iff in Hcu as [?%Z.leb_le ?%Z.leb_le].
    set (s := z mod 26) in *.
    replace ((c - 65 + s) mod 26 + 65 - 65) with ((c - 65 + s) mod 26) by lia.
    rewrite Zplus_mod_idemp_l, Zplus_mod_idemp_r.
    replace (c - 65 + s + (26 - s)) with (c - 65 + 1 * 26) by lia.
    rewrite Z.mod_add, Z.mod_small by lia. lia.
  - unfold isLower in Hcl. apply andb_true_iff in Hcl as [?%Z.leb_le ?%Z.leb_le].
    set (s := z mod 26) in *.
    replace ((c - 97 + s) mod 26 + 97 - 97) with ((c - 97 + s) mod 26) by lia.
    rewrite Zplus_mod_idemp_l, Zplus_mod_idemp_r.
    replace (c - 97 + s + (26 - s)) with (c - 97 + 1 * 26) by lia.
    rewrite Z.mod_add, Z.mod_small by lia. lia.
Qed.

Lemma caesarCipher_Int (text : jsstring) (z : Z) (mode : Mode) :
  caesarCipher text (Int z) mode = Ok (map (shiftChar (effectiveShift (Int z) mode)) text).
Proof. done. Qed.

(** The guard of [caesarCipher] is [isNaN]: the call throws on NaN and on
    nothing else. *)
Lemma caesarCipher_throws_iff (text : jsstring) (shift : number) (mode : Mode) :
  (∃ e, caesarCipher text shift mode = Err e) ↔ shift = NaN.
Proof.
  unfold caesarCipher. split.
  - intros [e He]. by destruct shift.
  - intros ->. by eexists.
Qed.

(** Every whole number is accepted, and the shift applied lies in [0, 26). *)
Lemma caesarCipher_accepts_Int (text : jsstring) (z : Z) (mode : Mode) :
  ∃ s out, effectiveShift (Int z) mode = Int s ∧ 0 <= s < 26 ∧
           caesarCipher text (Int z) mode = Ok out.
Proof.
  destruct (effectiveShift_Int z mode) as (s & Hs & Hb & _).
  exists s, (map (shiftChar (Int s)) text). by rewrite caesarCipher_Int, Hs.
Qed.

(** The round trip on every text, letters or not. *)
Lemma caesar_round_trip_any (s : Z) (t : jsstring) :
  ∃ e, caesarCipher t (Int s) Encrypt = Ok e ∧ caesarCipher e (Int s) Decrypt = Ok t.
Proof.
  eexists; split; [apply caesarCipher_Int|].
  rewrite caesarCipher_Int. f_equal.
  destruct (effectiveShift_Int s Encrypt) as (se & -> & _ & ->).
  destruct (effectiveShift_Int s Decrypt) as (sd & -> & _ & ->).
  rewrite <- list_fmap_compose.
  rewrite <- (list_fmap_id t) at 2.
  apply list_fmap_ext. intros _ c _. apply shiftChar_inverse.
Qed.

(** C5: the guard does not do what the message of its error says.  A shift
    that is no whole number (one and a half, or an infinity) is not refused:
    the call returns, and returns text shifted by a fraction or NUL
    characters. *)
Theorem caesar_fraction_not_refused :
  isInteger (Frac (3 # 2)) = false ∧
  caesarCipher (str "A") (Frac (3 # 2)) Encrypt = Ok (str "B") ∧
  isInteger (Infinity false) = false ∧
  caesarCipher (str "Az") (Infinity false) Encrypt = Ok [0; 0].
Proof. by vm_compute. Qed.

(** C7: for every whole shift [s] and every text [t] of ASCII letters,
    decrypting with [s] what encrypting with [s] returned gives [t] back. *)
Theorem caesar_round_trip (s : Z) (t : jsstring) :
  Forall (λ c, isLetter c = true) t →
  ∃ e, caesarCipher t (Int s) Encrypt = Ok e ∧ caesarCipher e (Int s) Decrypt = Ok t.
Proof. intros _. apply caesar_round_trip_any. Qed.

Lemma caesar_round_trip_witness :
  Forall (λ c, isLetter c = true) (str "Attack") ∧
  ∃ e, caesarCipher (str "Attack") (Int 3) Encrypt = Ok e ∧
       caesarCipher e (Int 3) Decrypt = Ok (str "Attack").
Proof.
  assert (Forall (λ c, isLetter c = true) (str "Attack")) as H
    by (repeat constructor).
  split; [exact H | exact (caesar_round_trip 3 (str "Attack") H)].
Defined.

(** C8: for every whole shift and either direction there is one function
    [f] on characters, the same for every text, such that the cipher returns
    on every text and the character at each position of its output is [f] of
    the character at that position of the input, whatever the other
    characters are: the output is as long as the input.  A character that is
    no ASCII letter stays as it is; an upper-case letter becomes the
    upper-case letter [s] places on in the alphabet, counted from A modulo
    26, and a lower-case letter the lower-case letter [s] places on, counted
    from a, with [s] the shift modulo 26 when encrypting and its complement
    to 26 when decrypting. *)
Theorem caesar_pointwise (shift : Z) (mode : Mode) :
  ∃ (f : codeunit → codeunit) (s : Z),
    (∀ text : jsstring, ∃ out,
       caesarCipher text (Int shift) mode = Ok out ∧
       out = map f text ∧
       length out = length text ∧
       (∀ i c, text !! i = Some c → out !! i = Some (f c))) ∧
    s = match mode with
        | Encrypt => shift mod 26
        | Decrypt => (26 - shift mod 26) mod 26
        end ∧
    (∀ c, isLetter c = false → f c = c) ∧
    (∀ c, isUpper c = true → isUpper (f c) = true ∧ f c = (c - 65 + s) mod 26 + 65) ∧
    (∀ c, isLower c = true → isLower (f c) = true ∧ f c = (c - 97 + s) mod 26 + 97).
Proof.
  destruct (effectiveShift_Int shift mode) as (s & Hs & Hb & Hmode).
  exists (shiftChar (Int s)), s. split_and!.
  - intros text. exists (map (shiftChar (Int s)) text).
    rewrite caesarCipher_Int, Hs. split_and!; [done|done|apply length_fmap|].
    intros i c Hi. by rewrite list_lookup_fmap, Hi.
  - done.
  - intros c Hc. unfold shiftChar. by rewrite Hc.
  - intros c Hc. destruct (shiftChar_class s c Hb) as [-> _].
    split; [done|]. by rewrite shiftChar_Int, Hc by done.
  - intros c Hc. destruct (shiftChar_class s c Hb) as [_ ->].
    split; [done|]. rewrite shiftChar_Int by done.
    destruct (isUpper c) eqn:Hu; [|by rewrite Hc].
    by rewrite (upper_lower_excl c Hu) in Hc.
Qed.

End CaesarFacts.

(** ** Playfair *)

Module PlayfairFacts.
Import Playfair.

(** *** The alphabet *)

Lemma alphabet_NoDup : NoDup alphabet.
Proof. compute_done. Qed.

Lemma alphabet_length : length alphabet = 25.
Proof. done. Qed.

Lemma alphabet_letters : Forall (λ c, isAZ c = true ∧ c ≠ 74%Z) alphabet.
Proof. compute_done. Qed.

Lemma letter_in_alphabet (c : Z) : isAZ c = true → c ≠ 74%Z → c ∈ alphabet.
Proof.
  intros [?%Z.leb_le ?%Z.leb_le]%andb_true_iff Hj.
  assert (Forall (λ c, c = 74%Z ∨ c ∈ alphabet) (seqZ 65 26)) as Hall
    by compute_done.
  rewrite Forall_forall in Hall.
  destruct (Hall c); [apply elem_of_seqZ; lia|done..].
Qed.

Lemma in_alphabet_iff (c : Z) : c ∈ alphabet ↔ isAZ c = true ∧ c ≠ 74%Z.
Proof.
  split; [|intros []; by apply letter_in_alphabet].
  pose proof alphabet_letters as H. rewrite Forall_forall in H. apply H.
Qed.

Lemma stripNonAZ_id (s : list Z) : Forall (λ c, isAZ c = true) s → stripNonAZ s = s.
Proof.
  unfold stripNonAZ. induction 1 as [|c s Hc _ IH]; [done|].
  rewrite filter_cons_True by (by rewrite Hc). by rewrite IH.
Qed.

Lemma replaceJ_id (s : list Z) : Forall (λ c, c ≠ 74%Z) s → replaceJ s = s.
Proof.
  unfold replaceJ. induction 1 as [|c s Hc _ IH]; [done|]. simpl.
  rewrite IH. by destruct (Z.eqb_spec c 74).
Qed.

Section WithRuntime.
Context {RT : Runtime}.

Lemma sanitize_in_alphabet (text : list Z) : Forall (λ c, c ∈ alphabet) (sanitize text).
Proof.
  apply Forall_forall. intros c Hc. unfold sanitize, stripNonAZ, replaceJ in Hc.
  apply list_elem_of_filter in Hc as [Haz Hc].
  apply list_elem_of_fmap in Hc as (y & -> & _).
  apply letter_in_alphabet; [by destruct (isAZ _)|].
  destruct (Z.eqb_spec y 74); lia.
Qed.

(** *** The set of the letters of the key and the alphabet *)

Lemma setAdd_NoDup (seen : list Z) (c : Z) : NoDup seen → NoDup (setAdd seen c).
Proof.
  intros Hnd. unfold setAdd. case_bool_decide; [done|].
  apply NoDup_app. split_and!; [done| |apply NoDup_singleton].
  intros x Hx ->%list_elem_of_singleton. done.
Qed.

Lemma elem_of_setAdd (seen : list Z) (c x : Z) : x ∈ setAdd seen c ↔ x ∈ seen ∨ x = c.
Proof.
  unfold setAdd. case_bool_decide.
  - split; [by left|]. by intros [? | ->].
  - rewrite elem_of_app, list_elem_of_singleton. done.
Qed.

Lemma foldl_setAdd_NoDup (chars seen : list Z) :
  NoDup seen → NoDup (foldl setAdd seen chars).
Proof.
  revert seen. induction chars as [|c chars IH]; intros seen Hnd; [done|].
  simpl. by apply IH, setAdd_NoDup.
Qed.

Lemma elem_of_foldl_setAdd (chars seen : list Z) (x : Z) :
  x ∈ foldl setAdd seen chars ↔ x ∈ seen ∨ x ∈ chars.
Proof.
  revert seen. induction chars as [|c chars IH]; intros seen; simpl.
  - rewrite elem_of_nil. tauto.
  - rewrite IH, elem_of_setAdd, elem_of_cons. tauto.
Qed.

Lemma uniqueChars_NoDup (key : list Z) : NoDup (uniqueChars key).
Proof. apply foldl_setAdd_NoDup, NoDup_nil_2. Qed.

Lemma elem_of_uniqueChars (key : list Z) (x : Z) : x ∈ uniqueChars key ↔ x ∈ alphabet.
Proof.
  unfold uniqueChars, uniqueOf. rewrite elem_of_foldl_setAdd, elem_of_nil, elem_of_app.
  pose proof (sanitize_in_alphabet key) as H. rewrite Forall_forall in H.
  specialize (H x). tauto.
Qed.

Lemma uniqueChars_perm (key : list Z) : uniqueChars key ≡ₚ alphabet.
Proof.
  apply NoDup_Permutation;
    [apply uniqueChars_NoDup|apply alphabet_NoDup|apply elem_of_uniqueChars].
Qed.

Lemma uniqueChars_length (key : list Z) : length (uniqueChars key) = 25.
Proof. by rewrite uniqueChars_perm. Qed.

Lemma createPlayfairMatrix_eq (key : list Z) :
  createPlayfairMatrix key = Ok (rowsOf (uniqueChars key)).
Proof.
  unfold createPlayfairMatrix, uniqueChars, sanitize.
  assert (stripNonAZ (replaceJ (toUpperCase key) ++ alphabet)
          = stripNonAZ (replaceJ (toUpperCase key)) ++ alphabet) as ->.
  { unfold stripNonAZ at 1. by rewrite filter_app. }
  rewrite length_app, alphabet_length.
  destruct (length _ + 25 =? 0) eqn:E; [|done].
  apply Nat.eqb_eq in E. lia.
Qed.

Lemma rowsOf_concat (u : list Z) : length u = 25 → concat (rowsOf u) = u.
Proof.
  intros Hu. do 25 (destruct u as [|? u]; [done|]). by destruct u.
Qed.

Lemma rowsOf_shape (u : list Z) :
  length u = 25 → length (rowsOf u) = 5 ∧ Forall (λ row, length row = 5) (rowsOf u).
Proof.
  intros Hu. do 25 (destruct u as [|? u]; [done|]). destruct u; [|done].
  split; [done|]. repeat constructor.
Qed.

Lemma at_rowsOf (u : list Z) (r c : nat) :
  r < 5 → c < 5 → at_ (rowsOf u) r c = u !! (r * 5 + c).
Proof.
  intros Hr Hc. unfold at_, rowsOf.
  change (map ?f ?l) with (f <$> l).
  rewrite list_lookup_fmap, lookup_seq_lt by done. simpl.
  unfold slice. replace (r * 5 + 5 - r * 5) with 5 by lia.
  rewrite lookup_take_lt by done. by rewrite lookup_drop.
Qed.

Lemma positions_lookup (r c : nat) :
  r < 5 → c < 5 → positions !! (r * 5 + c) = Some (r, c).
Proof.
  intros Hr Hc.
  do 5 (destruct r as [|r]; [do 5 (destruct c as [|c]; [done|]); lia|]). lia.
Qed.

Lemma positions_inv (i : nat) (p : nat * nat) :
  positions !! i = Some p → p.1 < 5 ∧ p.2 < 5 ∧ i = p.1 * 5 + p.2.
Proof.
  intros Hi. do 25 (destruct i as [|i]; [injection Hi as <-; simpl; lia|]). done.
Qed.

(** [findPos] returns the one position that holds the letter. *)
Lemma findPos_at (u : list Z) (r c : nat) (x : Z) :
  NoDup u → r < 5 → c < 5 → u !! (r * 5 + c) = Some x →
  findPos (rowsOf u) (Some x) = Ok (r, c).
Proof.
  intros Hnd Hr Hc Hx. unfold findPos.
  assert (list_find (λ p, at_ (rowsOf u) p.1 p.2 = Some x) positions
          = Some (r * 5 + c, (r, c))) as ->; [|done].
  apply list_find_Some. split_and!.
  - by apply positions_lookup.
  - simpl. by rewrite at_rowsOf.
  - intros j p Hj Hlt Hp. apply positions_inv in Hj as (Hr' & Hc' & ->).
    rewrite at_rowsOf in Hp by done.
    pose proof (NoDup_lookup _ _ _ _ Hnd Hp Hx). lia.
Qed.

Lemma findPos_elem (u : list Z) (x : Z) :
  NoDup u → length u = 25 → x ∈ u →
  ∃ r c, r < 5 ∧ c < 5 ∧ u !! (r * 5 + c) = Some x ∧
         findPos (rowsOf u) (Some x) = Ok (r, c).
Proof.
  intros Hnd Hlen [i Hi]%list_elem_of_lookup.
  pose proof (lookup_lt_Some _ _ _ Hi) as Hlt.
  exists (i / 5), (i mod 5).
  assert (i / 5 * 5 + i mod 5 = i) as Heq
    by (pose proof (Nat.div_mod_eq i 5); lia).
  assert (i / 5 < 5) by (apply Nat.Div0.div_lt_upper_bound; lia).
  assert (i mod 5 < 5) by (apply Nat.mod_upper_bound; lia).
  split_and!; [done..| |].
  - by rewrite Heq.
  - apply findPos_at; [done..|]. by rewrite Heq.
Qed.


Lemma cell_at (u : list Z) (r c : nat) :
  NoDup u → length u = 25 → r < 5 → c < 5 →
  ∃ x, at_ (rowsOf u) r c = Some x ∧ x ∈ u ∧ findPos (rowsOf u) (Some x) = Ok (r, c).
Proof.
  intros Hnd Hlen Hr Hc.
  destruct (lookup_lt_is_Some_2 u (r * 5 + c)) as [x Hx]; [lia|].
  exists x. split_and!.
  - by rewrite at_rowsOf.
  - by eapply list_elem_of_lookup_2.
  - by apply findPos_at.
Qed.

Lemma shift_back (c : nat) : c < 5 → ((c + 1) mod 5 + 4) mod 5 = c.
Proof. intros Hc. do 5 (destruct c as [|c]; [done|]). lia. Qed.

Lemma shift_injective (a b : nat) :
  a < 5 → b < 5 → ((a + 1) mod 5 =? (b + 1) mod 5) = (a =? b).
Proof.
  intros Ha Hb.
  do 5 (destruct a as [|a]; [do 5 (destruct b as [|b]; [done|]); lia|]). lia.
Qed.

(** One digraph: the substitution returns two letters of the matrix, and
    decrypting the two letters that encrypting returned gives the digraph
    back. *)
Lemma substitute_pair (u : list Z) (mode : Mode) (out : list Z) (a b : Z) :
  NoDup u → length u = 25 → a ∈ u → b ∈ u →
  ∃ a' b', substitute (rowsOf u) mode out (Some a, Some b) = Ok (out ++ [a'; b']) ∧
    a' ∈ u ∧ b' ∈ u ∧
    (mode = Encrypt → ∀ out',
       substitute (rowsOf u) Decrypt out' (Some a', Some b') = Ok (out' ++ [a; b])).
Proof.
  intros Hnd Hlen Ha Hb.
  destruct (findPos_elem u a Hnd Hlen Ha) as (r1 & c1 & Hr1 & Hc1 & Hxa & Hfa).
  destruct (findPos_elem u b Hnd Hlen Hb) as (r2 & c2 & Hr2 & Hc2 & Hxb & Hfb).
  assert (at_ (rowsOf u) r1 c1 = Some a) as Haa by (by rewrite at_rowsOf).
  assert (at_ (rowsOf u) r2 c2 = Some b) as Hab by (by rewrite at_rowsOf).
  set (shift := match mode with Encrypt => 1 | Decrypt => 4 end).
  assert (∀ n, (n + shift) mod 5 < 5) as Hlt
    by (intros n; apply Nat.mod_upper_bound; lia).
  unfold substitute at 1. step. rewrite Hfa, Hfb. step.
  destruct (r1 =? r2) eqn:Er; [|destruct (c1 =? c2) eqn:Ec].
  - (* same row *)
    destruct (cell_at u r1 ((c1 + shift) mod 5) Hnd Hlen Hr1 (Hlt c1))
      as (a' & Ha' & Hina & Hfa').
    destruct (cell_at u r2 ((c2 + shift) mod 5) Hnd Hlen Hr2 (Hlt c2))
      as (b' & Hb' & Hinb & Hfb').
    exists a', b'. fold shift. rewrite Ha', Hb'. split_and!; [done..|].
    intros -> out'. unfold substitute. step. rewrite Hfa', Hfb'. step.
    rewrite Er. subst shift. rewrite !shift_back, Haa, Hab by done. done.
  - (* same column *)
    destruct (cell_at u ((r1 + shift) mod 5) c1 Hnd Hlen (Hlt r1) Hc1)
      as (a' & Ha' & Hina & Hfa').
    destruct (cell_at u ((r2 + shift) mod 5) c2 Hnd Hlen (Hlt r2) Hc2)
      as (b' & Hb' & Hinb & Hfb').
    exists a', b'. fold shift. rewrite Ha', Hb'. split_and!; [done..|].
    intros -> out'. unfold substitute. step. rewrite Hfa', Hfb'. step.
    subst shift. rewrite shift_injective, Er, Ec by done.
    rewrite !shift_back, Haa, Hab by done. done.
  - (* rectangle *)
    destruct (cell_at u r1 c2 Hnd Hlen Hr1 Hc2) as (a' & Ha' & Hina & Hfa').
    destruct (cell_at u r2 c1 Hnd Hlen Hr2 Hc1) as (b' & Hb' & Hinb & Hfb').
    exists a', b'. rewrite Ha', Hb'. split_and!; [done..|].
    intros _ out'. unfold substitute. step. rewrite Hfa', Hfb'. step.
    rewrite Er, (Nat.eqb_sym c2 c1), Ec, Haa, Hab. done.
Qed.


(** *** The loop over the digraphs *)

Lemma list_pair_ind {A : Type} (P : list A → Prop) :
  P [] → (∀ a, P [a]) → (∀ a b l, P l → P (a :: b :: l)) → ∀ l, P l.
Proof.
  intros H0 H1 H2 l.
  assert (P l ∧ ∀ a, P (a :: l)) as [? _]; [|done].
  induction l as [|b l [IH1 IH2]]; split; auto.
Qed.

Lemma substitute_all (u : list Z) (mode : Mode) (t : list Z) :
  NoDup u → length u = 25 → Forall (λ c, c ∈ u) t → length t mod 2 = 0 →
  ∀ out, ∃ e,
    foldM (substitute (rowsOf u) mode) out (digraphs t) = Ok (out ++ e) ∧
    length e = length t ∧ Forall (λ c, c ∈ u) e ∧
    (mode = Encrypt → ∀ out',
       foldM (substitute (rowsOf u) Decrypt) out' (digraphs e) = Ok (out' ++ t)).
Proof.
  intros Hnd Hlen. induction t as [|a|a b t IH] using list_pair_ind.
  - intros _ _ out. exists []. rewrite app_nil_r. split_and!; try done.
    intros _ out'. by rewrite app_nil_r.
  - intros _ Hodd. done.
  - intros Hall Heven out.
    apply Forall_cons in Hall as [Ha Hall]. apply Forall_cons in Hall as [Hb Hall].
    destruct (substitute_pair u mode out a b Hnd Hlen Ha Hb)
      as (a' & b' & Hsub & Ha' & Hb' & Hback).
    cbn [length] in Heven.
    destruct (IH Hall ltac:(lia) (out ++ [a'; b']))
      as (e & He & Hle & Hine & Hdec).
    exists (a' :: b' :: e).
    change (digraphs (a :: b :: t)) with ((Some a, Some b) :: digraphs t).
    cbn [foldM]. rewrite Hsub. step. rewrite He, <- app_assoc.
    split_and!; [done|simpl; lia|by repeat constructor|].
    intros Hm out'.
    change (digraphs (a' :: b' :: e)) with ((Some a', Some b') :: digraphs e).
    cbn [foldM]. rewrite (Hback Hm). step. rewrite (Hdec Hm), <- app_assoc. done.
Qed.

(** *** The preparation of the text *)

Lemma prepareStep_inv (P : Z → Prop) (res : list Z) (prepared : list Z) (i : nat) :
  P 88%Z → Forall P res → i < length res → Forall P prepared →
  Forall P (prepareStep res prepared i) ∧
  S (length prepared) ≤ length (prepareStep res prepared i).
Proof.
  intros HX Hres Hi Hacc.
  destruct (lookup_lt_is_Some_2 res i Hi) as [c Hc].
  assert (P c) by (rewrite Forall_forall in Hres; by eapply Hres, list_elem_of_lookup_2).
  unfold prepareStep. rewrite Hc. cbn [toStr].
  assert (Forall P (prepared ++ [c])) by (apply Forall_app; by repeat constructor).
  repeat case_match; rewrite ?length_app; simpl; split; try lia; try done.
  apply Forall_app. split; [done|]. by repeat constructor.
Qed.

Lemma prepare_loop_inv (P : Z → Prop) (res : list Z) (l : list nat) (acc : list Z) :
  P 88%Z → Forall P res → Forall (λ i, i < length res) l → Forall P acc →
  Forall P (foldl (prepareStep res) acc l) ∧
  length acc + length l ≤ length (foldl (prepareStep res) acc l).
Proof.
  intros HX Hres. revert acc. induction l as [|i l IH]; intros acc Hl Hacc; simpl.
  - split; [done|lia].
  - apply Forall_cons in Hl as [Hi Hl].
    destruct (prepareStep_inv P res acc i HX Hres Hi Hacc) as [HP Hlen].
    destruct (IH _ Hl HP). split; [done|lia].
Qed.

Lemma letterX_in_alphabet : 88%Z ∈ alphabet.
Proof. compute_done. Qed.

(** A text with a letter is prepared into a non-empty text of an even number
    of letters, all of them letters of the alphabet. *)
Lemma preparePlayfairText_ok (text : list Z) :
  sanitize text ≠ [] →
  ∃ p, preparePlayfairText text = Ok p ∧ Forall (λ c, c ∈ alphabet) p ∧
       length p mod 2 = 0 ∧ p ≠ [].
Proof.
  intros Hne. unfold preparePlayfairText.
  rewrite bool_decide_eq_false_2 by done.
  destruct (prepare_loop_inv (λ c, c ∈ alphabet) (sanitize text)
              (seq 0 (length (sanitize text))) [] letterX_in_alphabet
              (sanitize_in_alphabet text)) as [Hall Hlen]; [|done|].
  { apply Forall_forall. intros i Hi%elem_of_seq. lia. }
  set (prepared := foldl _ _ _) in *.
  assert (0 < length prepared).
  { rewrite length_seq in Hlen. simpl in Hlen.
    destruct (sanitize text); [done|simpl in Hlen; lia]. }
  case_bool_decide as Hodd.
  - eexists; split; [done|]. split; [|split].
    + apply Forall_app; split; [done|]. apply Forall_singleton, letterX_in_alphabet.
    + rewrite length_app. change (length letterX) with 1. lia.
    + by destruct prepared.
  - eexists; split; [done|]. split; [done|]. split; [lia|].
    intros ->. cbn [length] in *. lia.
Qed.


Lemma digraphs_lookup (t : list Z) (k : nat) (c d : Z) :
  k mod 2 = 0 → t !! k = Some c → t !! S k = Some d →
  (Some c, Some d) ∈ digraphs t.
Proof.
  revert k. induction t as [|a|a b t IH] using list_pair_ind; intros k Hk Hc Hd.
  - done.
  - destruct k; [done|]. by destruct k.
  - change (digraphs (a :: b :: t)) with ((Some a, Some b) :: digraphs t).
    destruct k as [|[|k]].
    + injection Hc as ->. injection Hd as ->. left.
    + lia.
    + right. apply (IH k); [lia|done..].
Qed.

Lemma sanitize_id {RS : RuntimeSpec RT} (t : list Z) :
  Forall (λ c, c ∈ alphabet) t → sanitize t = t.
Proof.
  intros Hall. unfold sanitize.
  assert (Forall (λ c, isAZ c = true ∧ c ≠ 74%Z) t) as Hl.
  { eapply Forall_impl; [done|]. intros c. apply in_alphabet_iff. }
  rewrite toUpperCase_AZ.
  - rewrite replaceJ_id by (eapply Forall_impl; [done|]; by intros c []).
    apply stripNonAZ_id. eapply Forall_impl; [done|]. by intros c [].
  - eapply Forall_impl; [done|]. intros c [-> _]. done.
Qed.

(** The loop of the preparation copies a text that has no digraph of two
    equal letters. *)
Lemma prepare_loop_copy (t : list Z) (k : nat) :
  Forall (λ p, p.1 ≠ p.2) (digraphs t) → k ≤ length t →
  foldl (prepareStep t) [] (seq 0 k) = take k t.
Proof.
  intros Hne. induction k as [|k IH]; intros Hk; [done|].
  rewrite seq_S, foldl_app, IH by lia. cbn [foldl plus].
  destruct (lookup_lt_is_Some_2 t k ltac:(lia)) as [c Hc].
  unfold prepareStep. rewrite Hc. cbn [toStr].
  rewrite <- (take_S_r _ _ _ Hc), length_take.
  case_bool_decide as Hodd; [|done].
  destruct (k + 1 <? length t) eqn:Hlt; [|done].
  apply Nat.ltb_lt in Hlt.
  destruct (lookup_lt_is_Some_2 t (k + 1) Hlt) as [d Hd].
  rewrite Hd. case_bool_decide as Heq; [|done]. exfalso.
  injection Heq as ->. replace (k + 1) with (S k) in Hd by lia.
  pose proof (digraphs_lookup t k d d ltac:(lia) Hc Hd) as Hin.
  rewrite Forall_forall in Hne. by apply (Hne _ Hin).
Qed.

(** Preparation leaves alone an even number of letters of the alphabet with
    no digraph of two equal letters. *)
Lemma preparePlayfairText_fixed {RS : RuntimeSpec RT} (t : list Z) :
  Forall (λ c, c ∈ alphabet) t → t ≠ [] → length t mod 2 = 0 →
  Forall (λ p, p.1 ≠ p.2) (digraphs t) →
  preparePlayfairText t = Ok t.
Proof.
  intros Hall Hne Heven Hdig. unfold preparePlayfairText.
  rewrite sanitize_id by done. rewrite bool_decide_eq_false_2 by done.
  rewrite prepare_loop_copy, firstn_all by done.
  by rewrite bool_decide_eq_false_2 by lia.
Qed.

Lemma playfairCipher_run (key text : list Z) (mode : Mode) (prepared : list Z) :
  preparedText text mode = Ok prepared → prepared ≠ [] →
  length prepared mod 2 = 0 →
  playfairCipher text key mode
  = foldM (substitute (rowsOf (uniqueChars key)) mode) [] (digraphs prepared).
Proof.
  intros Hp Hne Heven. unfold playfairCipher.
  rewrite createPlayfairMatrix_eq, Hp. step.
  destruct mode; [done|].
  rewrite bool_decide_eq_false_2 by done.
  by rewrite bool_decide_eq_false_2 by lia.
Qed.

Lemma in_uniqueChars (key : list Z) (t : list Z) :
  Forall (λ c, c ∈ alphabet) t ↔ Forall (λ c, c ∈ uniqueChars key) t.
Proof. apply Forall_iff. intros c. by rewrite elem_of_uniqueChars. Qed.

(** The round trip on a text that is already in prepared form. *)
Lemma playfair_round_trip_fixed {RS : RuntimeSpec RT} (key t : list Z) :
  preparePlayfairText t = Ok t → t ≠ [] → length t mod 2 = 0 →
  Forall (λ c, c ∈ alphabet) t →
  ∃ e, playfairCipher t key Encrypt = Ok e ∧ playfairCipher e key Decrypt = Ok t.
Proof.
  intros Hfix Hne Heven Hall.
  destruct (substitute_all (uniqueChars key) Encrypt t (uniqueChars_NoDup key)
              (uniqueChars_length key) (proj1 (in_uniqueChars key t) Hall) Heven [])
    as (e & He & Hlen & Hine & Hdec).
  exists e. split.
  - by rewrite (playfairCipher_run key t Encrypt t).
  - rewrite (playfairCipher_run key e Decrypt e).
    + by rewrite (Hdec eq_refl).
    + cbn [preparedText]. rewrite sanitize_id; [done|]. by apply (in_uniqueChars key).
    + intros ->. by destruct t.
    + lia.
Qed.


(** C6: for every key, with letters or without, [createPlayfairMatrix]
    returns a grid of five rows of five cells in which each of the 25 letters
    of the alphabet (and so no J) stands exactly once; for a key that
    sanitization leaves no letter of, the grid is the alphabet row by row. *)
Theorem createPlayfairMatrix_grid (key : list Z) :
  ∃ matrix, createPlayfairMatrix key = Ok matrix ∧
    length matrix = 5 ∧ Forall (λ row, length row = 5) matrix ∧
    NoDup (concat matrix) ∧ (∀ c, c ∈ concat matrix ↔ c ∈ alphabet) ∧
    concat matrix ≡ₚ alphabet ∧ (74%Z ∉ concat matrix) ∧
    (sanitize key = [] → matrix = plainGrid).
Proof.
  exists (rowsOf (uniqueChars key)).
  pose proof (uniqueChars_length key) as Hlen.
  destruct (rowsOf_shape _ Hlen) as [Hrows Hcols].
  rewrite rowsOf_concat by done.
  split_and!; [apply createPlayfairMatrix_eq|done|done|apply uniqueChars_NoDup
              |apply elem_of_uniqueChars|apply uniqueChars_perm| |].
  - rewrite elem_of_uniqueChars, in_alphabet_iff. by intros [_ ?].
  - intros Hnone. unfold uniqueChars. by rewrite Hnone.
Qed.

(** C10: whatever the key, a text of which sanitization leaves no letter
    makes [playfairCipher] throw, when encrypting (the error of
    [preparePlayfairText]) and when decrypting alike; it never returns the
    empty string. *)
Theorem playfair_no_letters (key text : list Z) (mode : Mode) :
  sanitize text = [] →
  playfairCipher text key mode
  = Err match mode with
        | Encrypt => PlayfairNoLetters
        | Decrypt => PlayfairDecryptNoLetters
        end.
Proof.
  intros Hnone. unfold playfairCipher. rewrite createPlayfairMatrix_eq. step.
  destruct mode; cbn [preparedText].
  - unfold preparePlayfairText. by rewrite Hnone.
  - by rewrite Hnone.
Qed.

(** C9: for every key and every text that has a letter after sanitization
    (and, when decrypting, an even number of them), every character of the
    prepared text and every [prepared[i + 1]] is found by [findPos]: the text
    has an even length and each of its characters has a position in the
    matrix, so the cipher returns and the branch that throws
    [CharacterNotFound] is not reached. *)
Theorem playfair_lookup_never_fails (key text : list Z) (mode : Mode) :
  sanitize text ≠ [] →
  (mode = Decrypt → length (sanitize text) mod 2 = 0) →
  ∃ matrix prepared out,
    createPlayfairMatrix key = Ok matrix ∧
    preparedText text mode = Ok prepared ∧
    length prepared mod 2 = 0 ∧
    Forall (λ c, ∃ p, findPos matrix (Some c) = Ok p) prepared ∧
    Forall (λ d, ∃ a b p q, d = (Some a, Some b) ∧ findPos matrix (Some a) = Ok p
                            ∧ findPos matrix (Some b) = Ok q) (digraphs prepared) ∧
    playfairCipher text key mode = Ok out.
Proof.
  intros Hne Heven.
  assert (∃ prepared, preparedText text mode = Ok prepared ∧ prepared ≠ [] ∧
            length prepared mod 2 = 0 ∧ Forall (λ c, c ∈ alphabet) prepared)
    as (prepared & Hp & Hpne & Hpeven & Hall).
  { destruct mode; cbn [preparedText].
    - destruct (preparePlayfairText_ok text Hne) as (p & -> & ? & ? & ?). by exists p.
    - exists (sanitize text). split_and!; [done|done|by apply Heven|].
      apply sanitize_in_alphabet. }
  set (u := uniqueChars key).
  pose proof (uniqueChars_NoDup key) as Hnd.
  pose proof (uniqueChars_length key) as Hlen.
  assert (∀ c, c ∈ alphabet → ∃ p, findPos (rowsOf u) (Some c) = Ok p) as Hfind.
  { intros c Hc%(elem_of_uniqueChars key).
    destruct (findPos_elem u c Hnd Hlen Hc) as (r & c' & _ & _ & _ & ?). by eexists. }
  destruct (substitute_all u mode prepared Hnd Hlen
              (proj1 (in_uniqueChars key prepared) Hall) Hpeven [])
    as (e & He & _).
  exists (rowsOf u), prepared, e. split_and!.
  - apply createPlayfairMatrix_eq.
  - done.
  - done.
  - eapply Forall_impl; [done|]. apply Hfind.
  - clear Hp Hpne He. induction prepared as [|a|a b l IH] using list_pair_ind.
    + constructor.
    + done.
    + apply Forall_cons in Hall as [Ha Hall]. apply Forall_cons in Hall as [Hb Hall].
      change (digraphs (a :: b :: l)) with ((Some a, Some b) :: digraphs l).
      constructor; [|apply IH; [cbn [length] in Hpeven; lia|done]].
      destruct (Hfind a Ha) as [p ?], (Hfind b Hb) as [q ?]. by exists a, b, p, q.
  - by rewrite (playfairCipher_run key text mode prepared).
Qed.

(** C3: the scenario of the specification.  The text and the key are upper
    case already, which [toUpperCase] leaves as it is. *)
Theorem playfair_reference {RS : RuntimeSpec RT} :
  playfairCipher (str "HIDETHEGOLDINTHETREESTUMP") (str "PLAYFAIREXAMPLE") Encrypt
  = Ok (str "BMODZBXDNABEKUDMUIXMMOUVIF").
Proof.
  unfold playfairCipher, createPlayfairMatrix, preparedText, preparePlayfairText, sanitize.
  rewrite !toUpperCase_AZ by compute_done.
  by vm_compute.
Qed.

(** C2, amended: for every key and every prepared text [t] (what
    [preparePlayfairText] returned for some input) that has no digraph of two
    equal letters, decrypting what encrypting [t] returned gives [t] back. *)
Theorem playfair_round_trip {RS : RuntimeSpec RT} (key u t : list Z) :
  preparePlayfairText u = Ok t →
  Forall (λ d, d.1 ≠ d.2) (digraphs t) →
  ∃ e, playfairCipher t key Encrypt = Ok e ∧ playfairCipher e key Decrypt = Ok t.
Proof.
  intros Hprep Hdig.
  assert (sanitize u ≠ []) as Hne.
  { intros Hnone. unfold preparePlayfairText in Hprep. by rewrite Hnone in Hprep. }
  destruct (preparePlayfairText_ok u Hne) as (p & Hp & Hall & Heven & Hpne).
  rewrite Hprep in Hp. injection Hp as <-.
  apply playfair_round_trip_fixed; [|done..].
  by apply preparePlayfairText_fixed.
Qed.

End WithRuntime.


(** The runtime of the scenarios meets the specification of the runtime. *)
Lemma asciiRuntime_spec : RuntimeSpec asciiRuntime.
Proof.
  split. intros s Hs. cbn [toUpperCase asciiRuntime]. unfold asciiUpper.
  induction Hs as [|c s Hc _ IH]; [done|]. cbn [map]. rewrite IH. f_equal.
  unfold isAZ in Hc. apply Is_true_true in Hc.
  apply andb_true_iff in Hc as [_ ?%Z.leb_le].
  rewrite (proj2 (Z.leb_gt 97 c)) by lia. done.
Qed.


Lemma createPlayfairMatrix_grid_witness :
  sanitize (RT := asciiRuntime) (str "!!!") = [] ∧
  createPlayfairMatrix (RT := asciiRuntime) (str "!!!") = Ok plainGrid.
Proof.
  split; [reflexivity|].
  destruct (createPlayfairMatrix_grid (RT := asciiRuntime) (str "!!!"))
    as (matrix & -> & _ & _ & _ & _ & _ & _ & Hplain).
  f_equal. apply Hplain. reflexivity.
Defined.

Lemma playfair_no_letters_witness :
  sanitize (RT := asciiRuntime) (str "2026!") = [] ∧
  playfairCipher (RT := asciiRuntime) (str "2026!") (str "KEY") Decrypt
  = Err PlayfairDecryptNoLetters.
Proof.
  split; [reflexivity|].
  exact (playfair_no_letters (RT := asciiRuntime) (str "KEY") (str "2026!") Decrypt eq_refl).
Defined.

Lemma playfair_lookup_never_fails_witness :
  ∃ matrix prepared out,
    createPlayfairMatrix (RT := asciiRuntime) (str "KEY") = Ok matrix ∧
    preparedText (RT := asciiRuntime) (str "hello") Encrypt = Ok prepared ∧
    length prepared mod 2 = 0 ∧
    Forall (λ c, ∃ p, findPos matrix (Some c) = Ok p) prepared ∧
    Forall (λ d, ∃ a b p q, d = (Some a, Some b) ∧ findPos matrix (Some a) = Ok p
                            ∧ findPos matrix (Some b) = Ok q) (digraphs prepared) ∧
    playfairCipher (RT := asciiRuntime) (str "hello") (str "KEY") Encrypt = Ok out.
Proof.
  apply (playfair_lookup_never_fails (RT := asciiRuntime) (str "KEY") (str "hello") Encrypt).
  - by vm_compute.
  - intros H. discriminate H.
Defined.

Lemma playfair_reference_witness :
  playfairCipher (RT := asciiRuntime)
    (str "HIDETHEGOLDINTHETREESTUMP") (str "PLAYFAIREXAMPLE") Encrypt
  = Ok (str "BMODZBXDNABEKUDMUIXMMOUVIF").
Proof. exact (playfair_reference (RT := asciiRuntime) (RS := asciiRuntime_spec)). Defined.

(** C2 as it is stated fails on a prepared text with a digraph of two X:
    preparing the one letter X gives XX, and encrypting XX prepares it once
    more, to XXXX, so that four letters come back where two went in. *)
Lemma playfair_round_trip_counterexample :
  preparePlayfairText (RT := asciiRuntime) (str "X") = Ok (str "XX") ∧
  playfairCipher (RT := asciiRuntime) (str "XX") (str "KEY") Encrypt = Ok (str "ZZZZ") ∧
  playfairCipher (RT := asciiRuntime) (str "ZZZZ") (str "KEY") Decrypt = Ok (str "XXXX") ∧
  str "XXXX" ≠ str "XX".
Proof. by vm_compute. Qed.

Lemma playfair_round_trip_witness :
  preparePlayfairText (RT := asciiRuntime) (str "HIDETHEGOLDINTHETREESTUMP")
    = Ok (str "HIDETHEGOLDINTHETREXESTUMP") ∧
  Forall (λ d, d.1 ≠ d.2) (digraphs (str "HIDETHEGOLDINTHETREXESTUMP")) ∧
  ∃ e, playfairCipher (RT := asciiRuntime)
         (str "HIDETHEGOLDINTHETREXESTUMP") (str "PLAYFAIREXAMPLE") Encrypt = Ok e ∧
       playfairCipher (RT := asciiRuntime) e (str "PLAYFAIREXAMPLE") Decrypt
         = Ok (str "HIDETHEGOLDINTHETREXESTUMP").
Proof.
  assert (Forall (λ d, d.1 ≠ d.2) (digraphs (str "HIDETHEGOLDINTHETREXESTUMP"))) as Hdig
    by compute_done.
  split_and!; [reflexivity|exact Hdig|].
  exact (playfair_round_trip (RT := asciiRuntime) (RS := asciiRuntime_spec)
           (str "PLAYFAIREXAMPLE") (str "HIDETHEGOLDINTHETREESTUMP")
           (str "HIDETHEGOLDINTHETREXESTUMP") eq_refl Hdig).
Defined.

End PlayfairFacts.

(** ** Columnar transposition *)

Module TranspositionFacts.
Import Transposition.

Lemma newGrid_tab (R n : nat) : newGrid R n = tab R n (λ _ _, []).
Proof. apply tab_replicate. Qed.

Lemma setCell_tab (R n : nat) (f : nat → nat → list Z) (r c : nat) (v : list Z) :
  r < R → c < n → setCell (tab R n f) r c v = Ok (tab R n (upd f r c v)).
Proof.
  intros Hr Hc. unfold setCell. rewrite tab_lookup by done. by rewrite insert_tab.
Qed.

Lemma getCell_tab (R n : nat) (f : nat → nat → list Z) (r c : nat) :
  r < R → c < n → getCell (tab R n f) r c = Ok (Some (f r c)).
Proof.
  intros Hr Hc. unfold getCell. rewrite tab_lookup by done.
  by rewrite list_lookup_fmap, lookup_seq_lt.
Qed.


(** *** The grid of a text *)

Section Geometry.
Variable text : list Z.
Variable n : nat.
Hypothesis n_pos : 0 < n.

Lemma position_unique (r c k : nat) :
  c < n → r * n + c = k ↔ r = k / n ∧ c = k mod n.
Proof using n_pos.
  intros Hc. split.
  - intros <-. split.
    + apply (Nat.div_unique _ _ _ c); lia.
    + apply (Nat.mod_unique _ _ r); lia.
  - intros [-> ->]. pose proof (Nat.div_mod_eq k n). lia.
Qed.

Lemma ceilDiv_bounds (L : nat) : L ≤ ceilDiv L n * n ∧ (ceilDiv L n * n < L + n).
Proof using n_pos.
  unfold ceilDiv. pose proof (Nat.div_mod_eq L n) as Hd.
  pose proof (Nat.mod_upper_bound L n ltac:(lia)) as Hm.
  destruct (Nat.eqb_spec (L mod n) 0) as [E|E]; nia.
Qed.

(** The bookkeeping of the decryption: the column at [c] has [colLen] rows
    that hold a character. *)
Lemma colLen_spec (L r c : nat) :
  c < n → r < colLen (ceilDiv L n) (L mod n) c ↔ r * n + c < L.
Proof using n_pos.
  intros Hc. unfold colLen, ceilDiv.
  pose proof (Nat.div_mod_eq L n) as Hd.
  pose proof (Nat.mod_upper_bound L n ltac:(lia)) as Hm.
  set (q := L / n) in *. set (F := L mod n) in *.
  destruct (Nat.eqb_spec F 0) as [E|E]; cbn [orb].
  - split; intros; nia.
  - destruct (Nat.ltb_spec c F) as [Hlt|Hge].
    + split; intros; nia.
    + replace (S q - 1) with q by lia. split; intros; nia.
Qed.

Lemma fill_spec (text2 : list Z) (k R : nat) (f : nat → nat → list Z) :
  k + length text2 ≤ R * n →
  foldM (fillRowMajor n) (tab R n f) (zip (seq k (length text2)) text2)
  = Ok (tab R n (λ r c,
          if bool_decide (k ≤ r * n + c < k + length text2)
          then option_list (text2 !! (r * n + c - k)) else f r c)).
Proof using n_pos.
  revert k f. induction text2 as [|x t IH]; intros k f Hk.
  - cbn [length seq zip zip_with foldM]. f_equal. apply tab_ext. intros r c _ _.
    rewrite bool_decide_eq_false_2 by lia. done.
  - cbn [length seq zip zip_with foldM fillRowMajor]. cbn [length] in Hk.
    rewrite setCell_tab; [|apply Nat.Div0.div_lt_upper_bound; lia
                          |apply Nat.mod_upper_bound; lia].
    step. rewrite IH by lia. f_equal. apply tab_ext. intros r c Hr Hc.
    unfold upd. cbn [length].
    destruct (decide (r * n + c = k)) as [Heq|Hne].
    + rewrite bool_decide_eq_false_2 by lia.
      rewrite bool_decide_eq_true_2 by (by apply position_unique).
      rewrite bool_decide_eq_true_2 by lia.
      by replace (r * n + c - k) with 0 by lia.
    + rewrite (bool_decide_eq_false_2 (r = _ ∧ _))
        by (by rewrite <- position_unique).
      case_bool_decide.
      * rewrite bool_decide_eq_true_2 by lia.
        by replace (r * n + c - k) with (S (r * n + c - S k)) by lia.
      * by rewrite bool_decide_eq_false_2 by lia.
Qed.

Lemma fill_text (R : nat) :
  length text ≤ R * n →
  foldM (fillRowMajor n) (newGrid R n) (zip (seq 0 (length text)) text)
  = Ok (tab R n (cellOf text n)).
Proof using n_pos.
  intros HR. rewrite newGrid_tab, fill_spec by lia. f_equal.
  apply tab_ext. intros r c _ _. unfold cellOf. rewrite Nat.sub_0_r.
  case_bool_decide; [done|]. by rewrite lookup_ge_None_2 by lia.
Qed.

(** *** Reading the grid *)

Lemma readCellIfSet_tab (R : nat) (f : nat → nat → list Z) (r c : nat) (out : list Z) :
  r < R → c < n → readCellIfSet (tab R n f) c out r = Ok (out ++ f r c).
Proof.
  intros Hr Hc. unfold readCellIfSet. rewrite getCell_tab by done. step.
  case_bool_decide as Hset; [done|].
  injection Hset as ->. by rewrite app_nil_r.
Qed.

Lemma readCells_spec (R : nat) (f : nat → nat → list Z) (c : nat)
    (rows : list nat) (out : list Z) :
  c < n → Forall (λ r, r < R) rows →
  foldM (readCellIfSet (tab R n f) c) out rows
  = Ok (out ++ concat ((λ r, f r c) <$> rows)).
Proof.
  intros Hc. revert out. induction rows as [|r rows IH]; intros out Hrows.
  - by rewrite app_nil_r.
  - apply Forall_cons in Hrows as [Hr Hrows].
    cbn [foldM]. rewrite readCellIfSet_tab by done. step.
    rewrite IH by done. cbn [fmap list_fmap concat]. by rewrite app_assoc.
Qed.

Lemma readColumn_tab (R : nat) (f : nat → nat → list Z) (k : keyEntry) (out : list Z) :
  index k < n →
  readColumn (tab R n f) R out k = Ok (out ++ concat ((λ r, f r (index k)) <$> seq 0 R)).
Proof using n_pos.
  intros Hk. unfold readColumn. apply readCells_spec; [done|].
  apply Forall_forall. intros r Hr%elem_of_seq. lia.
Qed.

Lemma readColumns_spec (R : nat) (f : nat → nat → list Z)
    (keyArr : list keyEntry) (out : list Z) :
  Forall (λ k, index k < n) keyArr →
  foldM (readColumn (tab R n f) R) out keyArr
  = Ok (out ++ concat ((λ k, concat ((λ r, f r (index k)) <$> seq 0 R)) <$> keyArr)).
Proof using n_pos.
  revert out. induction keyArr as [|k keyArr IH]; intros out Hks.
  - by rewrite app_nil_r.
  - apply Forall_cons in Hks as [Hk Hks].
    cbn [foldM]. rewrite readColumn_tab by done. step.
    rewrite IH by done. cbn [fmap list_fmap concat]. by rewrite app_assoc.
Qed.

Lemma readCellAt_tab (R : nat) (f : nat → nat → list Z) (r c : nat) (out : list Z) :
  r < R → c < n → readCellAt (tab R n f) r out c = Ok (out ++ f r c).
Proof. intros Hr Hc. unfold readCellAt. by rewrite getCell_tab. Qed.

Lemma readRow_spec (R : nat) (f : nat → nat → list Z) (r : nat)
    (cols : list nat) (out : list Z) :
  r < R → Forall (λ c, c < n) cols →
  foldM (readCellAt (tab R n f) r) out cols
  = Ok (out ++ concat (f r <$> cols)).
Proof.
  intros Hr. revert out. induction cols as [|c cols IH]; intros out Hcols.
  - by rewrite app_nil_r.
  - apply Forall_cons in Hcols as [Hc Hcols].
    cbn [foldM]. rewrite readCellAt_tab by done. step.
    rewrite IH by done. cbn [fmap list_fmap concat]. by rewrite app_assoc.
Qed.

Lemma readRow_tab (R : nat) (f : nat → nat → list Z) (r : nat) (out : list Z) :
  r < R → readRow (tab R n f) n out r = Ok (out ++ concat (f r <$> seq 0 n)).
Proof using n_pos.
  intros Hr. unfold readRow. apply readRow_spec; [done|].
  apply Forall_forall. intros c Hc%elem_of_seq. lia.
Qed.

Lemma readRows_spec (R : nat) (f : nat → nat → list Z) (rows : list nat) (out : list Z) :
  Forall (λ r, r < R) rows →
  foldM (readRow (tab R n f) n) out rows
  = Ok (out ++ concat ((λ r, concat (f r <$> seq 0 n)) <$> rows)).
Proof using n_pos.
  revert out. induction rows as [|r rows IH]; intros out Hrows.
  - by rewrite app_nil_r.
  - apply Forall_cons in Hrows as [Hr Hrows].
    cbn [foldM]. rewrite readRow_tab by done. step.
    rewrite IH by done. cbn [fmap list_fmap concat]. by rewrite app_assoc.
Qed.

(** A row of the grid is the next [n] characters of the text, and the rows
    together are the text. *)
Lemma chunk_concat (l : list Z) (m : nat) :
  concat ((λ c, option_list (l !! c)) <$> seq 0 m) = take m l.
Proof using n_pos.
  induction m as [|m IH]; [done|].
  rewrite seq_S, fmap_app, concat_app, IH. cbn [fmap list_fmap concat plus].
  rewrite app_nil_r. destruct (l !! m) eqn:E.
  - by rewrite (take_S_r _ _ _ E).
  - apply lookup_ge_None in E. cbn [option_list]. rewrite app_nil_r.
    by rewrite !take_ge by lia.
Qed.

Lemma row_concat (r : nat) :
  concat (cellOf text n r <$> seq 0 n) = take n (drop (r * n) text).
Proof using n_pos.
  rewrite <- chunk_concat. f_equal. apply list_fmap_ext. intros _ c _.
  unfold cellOf. by rewrite lookup_drop.
Qed.

Lemma rows_concat (R : nat) :
  concat ((λ r, concat (cellOf text n r <$> seq 0 n)) <$> seq 0 R) = take (R * n) text.
Proof using n_pos.
  induction R as [|R IH]; [done|].
  rewrite seq_S, fmap_app, concat_app, IH. cbn [fmap list_fmap concat plus].
  rewrite app_nil_r, row_concat, take_take_drop. f_equal. lia.
Qed.


(** *** The columns *)

Lemma concat_option_prefix (g : nat → option Z) (R m : nat) :
  m ≤ R → (∀ r, r < m → is_Some (g r)) → (∀ r, m ≤ r → r < R → g r = None) →
  length (concat ((λ r, option_list (g r)) <$> seq 0 R)) = m ∧
  ∀ r, r < m → concat ((λ r, option_list (g r)) <$> seq 0 R) !! r = g r.
Proof using n_pos.
  revert m. induction R as [|R IH]; intros m Hm Hsome Hnone.
  - split; [cbn; lia|]. intros r Hr. lia.
  - rewrite seq_S, fmap_app, concat_app. cbn [fmap list_fmap concat plus].
    rewrite app_nil_r. destruct (decide (m = S R)) as [->|Hne].
    + destruct (IH R) as [Hlen Hlook]; [lia|intros; apply Hsome; lia|intros; lia|].
      destruct (Hsome R ltac:(lia)) as [x Hx]. rewrite Hx. cbn [option_list].
      split; [rewrite length_app, Hlen; cbn; lia|].
      intros r Hr. destruct (decide (r = R)) as [->|Hr'].
      * rewrite lookup_app_r by lia. rewrite Hlen, Nat.sub_diag. by rewrite Hx.
      * rewrite lookup_app_l by lia. apply Hlook. lia.
    + rewrite (Hnone R) by lia. cbn [option_list]. rewrite app_nil_r.
      apply IH; [lia|done|]. intros r ? ?. apply Hnone; lia.
Qed.

#[local] Abbreviation L := (length text).
#[local] Abbreviation R := (ceilDiv (length text) n).
#[local] Abbreviation F := (length text mod n).

Lemma colLen_le (c : nat) : colLen R F c ≤ R.
Proof using n_pos. unfold colLen. case_match; lia. Qed.

Lemma column_spec (c : nat) :
  c < n →
  length (column text n R c) = colLen R F c ∧
  ∀ r, r < colLen R F c → column text n R c !! r = text !! (r * n + c) ∧
                          is_Some (text !! (r * n + c)).
Proof using n_pos.
  intros Hc.
  assert (∀ r, r < colLen R F c → is_Some (text !! (r * n + c))) as Hsome.
  { intros r Hr%colLen_spec; [|done]. by apply lookup_lt_is_Some_2. }
  destruct (concat_option_prefix (λ r, text !! (r * n + c)) R (colLen R F c))
    as [Hlen Hlook]; [apply colLen_le|done| |].
  { intros r Hr _. apply lookup_ge_None_2.
    destruct (decide (r * n + c < length text)) as [Hlt|Hge]; [|lia].
    apply colLen_spec in Hlt; [|done]. lia. }
  split; [done|]. intros r Hr. split; [by apply Hlook|by apply Hsome].
Qed.

Lemma cellOf_below (r c : nat) :
  c < n → colLen R F c ≤ r → cellOf text n r c = [].
Proof using n_pos.
  intros Hc Hr. unfold cellOf. rewrite lookup_ge_None_2; [done|].
  destruct (decide (r * n + c < length text)) as [Hlt|Hge]; [|lia].
  apply colLen_spec in Hlt; [|done]. lia.
Qed.

(** *** Writing the columns back *)

Lemma writeCell_tab (E : list Z) (f : nat → nat → list Z) (off r c : nat) :
  r < R → c < n → off < length E →
  writeCell E c (tab R n f, off) r
  = Ok (tab R n (upd f r c (toStr (E !! off))), S off).
Proof.
  intros Hr Hc Hoff. unfold writeCell.
  rewrite (proj2 (Nat.ltb_lt _ _) Hoff), setCell_tab by done. done.
Qed.

Lemma writeCells_spec (E : list Z) (f : nat → nat → list Z) (off c m : nat) :
  m ≤ R → c < n → off + m ≤ length E →
  foldM (writeCell E c) (tab R n f, off) (seq 0 m)
  = Ok (tab R n (λ r' c', if bool_decide (c' = c ∧ r' < m)
                          then toStr (E !! (off + r')) else f r' c'),
        off + m).
Proof using n_pos.
  intros Hm Hc. induction m as [|m IH]; intros Hoff.
  - cbn [seq foldM]. rewrite Nat.add_0_r. do 2 f_equal.
    apply tab_ext. intros r' c' _ _. rewrite bool_decide_eq_false_2; [done|lia].
  - rewrite seq_S, foldM_app, IH by lia. step. cbn [foldM plus].
    rewrite writeCell_tab by lia. step. rewrite Nat.add_succ_r. do 2 f_equal.
    apply tab_ext. intros r' c' _ _. unfold upd.
    destruct (decide (r' = m ∧ c' = c)) as [[-> ->]|Hne].
    + by rewrite !bool_decide_eq_true_2 by lia.
    + rewrite (bool_decide_eq_false_2 _ Hne).
      by rewrite (bool_decide_ext (c' = c ∧ r' < m) (c' = c ∧ r' < S m)) by lia.
Qed.


Lemma columnsOf_app (ks ks' : list keyEntry) :
  columnsOf text n (ks ++ ks') = columnsOf text n ks ++ columnsOf text n ks'.
Proof. unfold columnsOf. by rewrite fmap_app, concat_app. Qed.

Lemma columnsOf_cons (k : keyEntry) (ks : list keyEntry) :
  columnsOf text n (k :: ks) = column text n R (index k) ++ columnsOf text n ks.
Proof. done. Qed.

Lemma writeColumn_step (order pre rest : list keyEntry) (k : keyEntry) :
  order = pre ++ k :: rest →
  NoDup (index <$> order) → Forall (λ k, index k < n) order →
  writeColumn (columnsOf text n order) R F
    (tab R n (cellsOf text n (index <$> pre)), length (columnsOf text n pre)) k
  = Ok (tab R n (cellsOf text n (index <$> (pre ++ [k]))), length (columnsOf text n (pre ++ [k]))).
Proof using n_pos.
  intros -> Hnd Hlt.
  assert (index k < n) as Hk.
  { rewrite Forall_forall in Hlt. apply Hlt. rewrite elem_of_app, elem_of_cons. auto. }
  assert (index k ∉ index <$> pre) as Hfresh.
  { rewrite fmap_app, fmap_cons in Hnd. apply NoDup_app in Hnd as (_ & Hnd & _).
    intros Hin. apply (Hnd _ Hin). left. }
  destruct (column_spec (index k) Hk) as [Hlen Hcol].
  unfold writeColumn.
  rewrite writeCells_spec; [|apply colLen_le|done|].
  2:{ rewrite columnsOf_app, columnsOf_cons, !length_app, Hlen. lia. }
  rewrite (columnsOf_app pre [k]), (columnsOf_cons k []), !length_app, Hlen.
  change (columnsOf text n []) with (@nil Z). cbn [length]. rewrite Nat.add_0_r.
  do 2 f_equal. apply tab_ext. intros r c Hr Hc. unfold cellsOf.
  rewrite fmap_app, fmap_cons. cbn [fmap list_fmap].
  case_bool_decide as Hwrite.
  - destruct Hwrite as [-> Hrow].
    rewrite bool_decide_eq_true_2 by (rewrite elem_of_app, list_elem_of_singleton; auto).
    destruct (Hcol r Hrow) as [Hlook [x Hx]].
    rewrite (columnsOf_app pre (k :: rest)), columnsOf_cons.
    rewrite lookup_app_r by lia.
    replace (length (columnsOf text n pre) + r - length (columnsOf text n pre)) with r by lia.
    rewrite lookup_app_l by lia. rewrite Hlook. unfold cellOf. by rewrite Hx.
  - destruct (decide (c = index k)) as [->|Hne].
    + rewrite (bool_decide_eq_false_2 _ Hfresh).
      rewrite bool_decide_eq_true_2 by (rewrite elem_of_app, list_elem_of_singleton; auto).
      symmetry. apply cellOf_below; [done|]. lia.
    + apply (f_equal (λ b : bool, if b then cellOf text n r c else [])).
      apply bool_decide_ext. rewrite elem_of_app, list_elem_of_singleton. tauto.
Qed.

Lemma writeColumns_spec (order pre rest : list keyEntry) :
  order = pre ++ rest →
  NoDup (index <$> order) → Forall (λ k, index k < n) order →
  foldM (writeColumn (columnsOf text n order) R F)
    (tab R n (cellsOf text n (index <$> pre)), length (columnsOf text n pre)) rest
  = Ok (tab R n (cellsOf text n (index <$> order)), length (columnsOf text n order)).
Proof using n_pos.
  revert pre. induction rest as [|k rest IH]; intros pre Horder Hnd Hlt.
  - rewrite app_nil_r in Horder. by subst.
  - cbn [foldM]. rewrite (writeColumn_step order pre rest k) by done. step.
    apply IH; [|done..]. by rewrite <- app_assoc.
Qed.

(** *** The ciphertext is a rearrangement of the text *)

Lemma concat_fmap_Permutation {A : Type} (g : A → list Z) (l k : list A) :
  l ≡ₚ k → concat (g <$> l) ≡ₚ concat (g <$> k).
Proof.
  induction 1 as [|x l k _ IH|x y l|l k m _ IH1 _ IH2]; cbn [fmap list_fmap concat].
  - done.
  - by rewrite IH.
  - rewrite !app_assoc. by rewrite (Permutation_app_comm (g y)).
  - by rewrite IH1.
Qed.

Lemma concat_fmap_split {A : Type} (g h : A → list Z) (l : list A) :
  concat ((λ x, g x ++ h x) <$> l) ≡ₚ concat (g <$> l) ++ concat (h <$> l).
Proof.
  induction l as [|x l IH]; [done|]. cbn [fmap list_fmap concat]. rewrite IH.
  rewrite <- !app_assoc. apply Permutation_app_head.
  rewrite !app_assoc. apply Permutation_app_tail, Permutation_app_comm.
Qed.

Lemma concat_transpose (f : nat → nat → list Z) (rows cols : list nat) :
  concat ((λ c, concat ((λ r, f r c) <$> rows)) <$> cols)
  ≡ₚ concat ((λ r, concat (f r <$> cols)) <$> rows).
Proof.
  induction cols as [|c cols IH]; cbn [fmap list_fmap concat].
  - induction rows as [|r rows IHr]; [done|]. by cbn [fmap list_fmap concat app].
  - rewrite IH. by rewrite <- (concat_fmap_split (λ r, f r c)).
Qed.

Lemma columnsOf_Permutation (ks : list keyEntry) :
  index <$> ks ≡ₚ seq 0 n → columnsOf text n ks ≡ₚ text.
Proof using n_pos.
  intros Hperm. unfold columnsOf.
  rewrite (list_fmap_compose index (column text n R)).
  rewrite (concat_fmap_Permutation _ _ _ Hperm).
  unfold column. rewrite (concat_transpose (cellOf text n)), rows_concat.
  rewrite take_ge; [done|]. apply ceilDiv_bounds.
Qed.

End Geometry.


(** *** The order of the columns *)

Section WithRuntime.
Context {RT : Runtime}.

Lemma insertEntry_Permutation (x : keyEntry) (l : list keyEntry) :
  insertEntry x l ≡ₚ x :: l.
Proof.
  induction l as [|y l IH]; [done|]. cbn [insertEntry].
  case_match; [done|]. rewrite IH. apply Permutation_swap.
Qed.

Lemma sortEntries_Permutation (l : list keyEntry) : sortEntries l ≡ₚ l.
Proof.
  induction l as [|x l IH]; [done|]. cbn [sortEntries foldr].
  rewrite insertEntry_Permutation. by apply Permutation_skip.
Qed.

(** The sorted key names every column once. *)
Lemma keyOrder_indices (sanitizedKey : list Z) :
  index <$> keyOrder sanitizedKey ≡ₚ seq 0 (length sanitizedKey).
Proof.
  unfold keyOrder. rewrite sortEntries_Permutation, fmap_imap.
  rewrite (imap_ext _ (λ i _, i)) by done.
  by rewrite (imap_seq_0 sanitizedKey (λ i, i)), list_fmap_id.
Qed.

Lemma keyOrder_columns (sanitizedKey : list Z) :
  NoDup (index <$> keyOrder sanitizedKey) ∧
  Forall (λ k, index k < length sanitizedKey) (keyOrder sanitizedKey) ∧
  ∀ c, c < length sanitizedKey → c ∈ index <$> keyOrder sanitizedKey.
Proof.
  pose proof (keyOrder_indices sanitizedKey) as Hperm. split_and!.
  - rewrite Hperm. apply NoDup_seq.
  - apply Forall_forall. intros k Hk.
    assert (index k ∈ index <$> keyOrder sanitizedKey) as Hin
      by (by apply list_elem_of_fmap_2).
    rewrite Hperm in Hin. apply elem_of_seq in Hin. lia.
  - intros c Hc. rewrite Hperm. apply elem_of_seq. lia.
Qed.

Lemma encrypt_columns (text key : list Z) :
  sanitizeKey key ≠ [] →
  columnarTranspositionEncrypt text key
  = Ok (columnsOf text (length (sanitizeKey key)) (keyOrder (sanitizeKey key))).
Proof.
  intros Hkey. unfold columnarTranspositionEncrypt.
  rewrite bool_decide_eq_false_2 by done.
  assert (0 < length (sanitizeKey key)) as Hn by (destruct (sanitizeKey key); [done|cbn; lia]).
  rewrite fill_text; [|done|by apply ceilDiv_bounds]. step.
  rewrite readColumns_spec; [done|done|apply keyOrder_columns].
Qed.

Lemma decrypt_columns (text key : list Z) :
  sanitizeKey key ≠ [] →
  columnarTranspositionDecrypt
    (columnsOf text (length (sanitizeKey key)) (keyOrder (sanitizeKey key))) key
  = Ok text.
Proof.
  intros Hkey.
  set (n := length (sanitizeKey key)). set (ks := keyOrder (sanitizeKey key)).
  assert (0 < n) as Hn by (subst n; destruct (sanitizeKey key); [done|cbn; lia]).
  destruct (keyOrder_columns (sanitizeKey key)) as (Hnd & Hlt & Hall).
  assert (length (columnsOf text n ks) = length text) as Hlen
    by (rewrite columnsOf_Permutation; [done..|apply keyOrder_indices]).
  unfold columnarTranspositionDecrypt. rewrite bool_decide_eq_false_2 by done.
  fold n ks. rewrite Hlen.
  assert (newGrid (ceilDiv (length text) n) n
          = tab (ceilDiv (length text) n) n (cellsOf text n (index <$> []))) as ->.
  { rewrite newGrid_tab. apply tab_ext. intros r c _ _. unfold cellsOf.
    by rewrite bool_decide_eq_false_2 by apply not_elem_of_nil. }
  pose proof (writeColumns_spec text n Hn ks [] ks eq_refl Hnd Hlt) as Hwrite.
  change (length (columnsOf text n [])) with 0 in Hwrite.
  rewrite Hwrite. step.
  assert (tab (ceilDiv (length text) n) n (cellsOf text n (index <$> ks))
          = tab (ceilDiv (length text) n) n (cellOf text n)) as ->.
  { apply tab_ext. intros r c _ Hc. unfold cellsOf.
    by rewrite bool_decide_eq_true_2 by (by apply Hall). }
  rewrite (readRows_spec n Hn (ceilDiv (length text) n))
    by (apply Forall_forall; intros r Hr%elem_of_seq; lia).
  rewrite rows_concat by done. rewrite take_ge by (by apply ceilDiv_bounds). done.
Qed.

(** C1: for every key of which sanitization (upper-casing, then stripping
    what is no letter A to Z) leaves something and every text, decrypting what
    encrypting returned gives the text back, unit for unit.  The ciphertext is
    a rearrangement of the text, so the decryption sees the length and the
    grid of the encryption; and the length the decryption gives the column
    at [c] ([numRows] when [fullCols] is 0 or [c < fullCols], [numRows - 1]
    otherwise) is the number of rows [r] whose cell [(r, c)] holds a
    character of the text. *)
Theorem transposition_round_trip (text key : list Z) :
  sanitizeKey key ≠ [] →
  ∃ e, columnarTranspositionEncrypt text key = Ok e ∧
       columnarTranspositionDecrypt e key = Ok text ∧
       e ≡ₚ text ∧
       let numCols := length (sanitizeKey key) in
       let numRows := ceilDiv (length e) numCols in
       let fullCols := length e mod numCols in
       ∀ r c, c < numCols → r < colLen numRows fullCols c ↔ r * numCols + c < length text.
Proof.
  intros Hkey. eexists. split; [by apply encrypt_columns|].
  assert (0 < length (sanitizeKey key)) as Hn by (destruct (sanitizeKey key); [done|cbn; lia]).
  assert (columnsOf text (length (sanitizeKey key)) (keyOrder (sanitizeKey key)) ≡ₚ text)
    as Hperm by (apply columnsOf_Permutation; [done|apply keyOrder_indices]).
  split_and!; [by apply decrypt_columns|done|].
  intros numCols numRows fullCols r c Hc. subst numRows fullCols.
  rewrite Hperm. by apply colLen_spec.
Qed.

End WithRuntime.

Lemma transposition_round_trip_witness :
  sanitizeKey (RT := asciiRuntime) (str "Zebra 1") ≠ [] ∧
  ∃ e, columnarTranspositionEncrypt (RT := asciiRuntime) (str "ATTACK AT DAWN") (str "Zebra 1")
         = Ok e ∧
       columnarTranspositionDecrypt (RT := asciiRuntime) e (str "Zebra 1")
         = Ok (str "ATTACK AT DAWN") ∧
       e ≡ₚ str "ATTACK AT DAWN" ∧
       let numCols := length (sanitizeKey (RT := asciiRuntime) (str "Zebra 1")) in
       let numRows := ceilDiv (length e) numCols in
       let fullCols := length e mod numCols in
       ∀ r c, c < numCols →
              r < colLen numRows fullCols c ↔ r * numCols + c < length (str "ATTACK AT DAWN").
Proof.
  assert (sanitizeKey (RT := asciiRuntime) (str "Zebra 1") ≠ []) as Hkey by (by vm_compute).
  split; [exact Hkey|].
  exact (transposition_round_trip (RT := asciiRuntime)
           (str "ATTACK AT DAWN") (str "Zebra 1") Hkey).
Defined.

End TranspositionFacts.

(** ** Rail Fence *)

Module RailFenceFacts.
Import RailFence.

(** *** The zig-zag *)

Section Zigzag.
Variable rails : Z.
Hypothesis rails_ge : (2 ≤ rails)%Z.
Hypothesis rails_le : (rails ≤ maxArrayLength)%Z.

#[local] Abbreviation R := (Z.to_nat rails).

Lemma arrayFrom_ok {A : Type} (fill : A) : arrayFrom rails fill = Ok (replicate R fill).
Proof using rails_le. unfold arrayFrom. by rewrite (proj2 (Z.ltb_ge _ _)) by lia. Qed.

Lemma cursorAt_S (i : nat) : cursorAt rails (S i) = advance rails (cursorAt rails i).
Proof. done. Qed.

(** The cursor moves down until the last rail and up until the first. *)
Lemma cursor_inv (i : nat) :
  (direction (cursorAt rails i) = 1 ∧ 0 ≤ rail (cursorAt rails i) < rails - 1)%Z ∨
  (direction (cursorAt rails i) = -1 ∧ 0 < rail (cursorAt rails i) ≤ rails - 1)%Z.
Proof using rails_ge.
  induction i as [|i IH]; [left; cbn; lia|].
  rewrite cursorAt_S. unfold advance. cbn [rail direction].
  destruct IH as [[-> Hr]|[-> Hr]].
  - destruct (Z.eqb_spec (rail (cursorAt rails i) + 1) 0); [lia|].
    destruct (Z.eqb_spec (rail (cursorAt rails i) + 1) (rails - 1)); cbn [orb]; lia.
  - destruct (Z.eqb_spec (rail (cursorAt rails i) + -1) 0); cbn [orb]; [lia|].
    destruct (Z.eqb_spec (rail (cursorAt rails i) + -1) (rails - 1)); lia.
Qed.

Lemma rail_cursorAt (i : nat) : rail (cursorAt rails i) = Z.of_nat (railAt rails i).
Proof using rails_ge. unfold railAt. destruct (cursor_inv i); lia. Qed.

Lemma railAt_lt (i : nat) : railAt rails i < R.
Proof using rails_ge. unfold railAt. destruct (cursor_inv i); lia. Qed.

Lemma rowAt_cursor {A : Type} (fence : list A) (i : nat) (row : A) :
  fence !! railAt rails i = Some row → rowAt fence (rail (cursorAt rails i)) = Ok row.
Proof using rails_ge.
  intros Hrow. unfold rowAt. rewrite rail_cursorAt.
  rewrite (proj2 (Z.ltb_ge _ _)) by lia. by rewrite Nat2Z.id, Hrow.
Qed.

Lemma setRow_cursor {A : Type} (fence : list A) (i : nat) (row : A) :
  setRow fence (rail (cursorAt rails i)) row = <[railAt rails i := row]> fence.
Proof. done. Qed.

Lemma insert_fmap_seq {A : Type} (g : nat → A) (n j : nat) (v : A) :
  <[j := v]> (g <$> seq 0 n) = (λ j', if bool_decide (j' = j) then v else g j') <$> seq 0 n.
Proof.
  apply list_eq. intros j'. rewrite list_lookup_fmap.
  destruct (decide (j' < n)) as [Hlt|Hge].
  - rewrite lookup_seq_lt by done. cbn. destruct (decide (j' = j)) as [->|Hne].
    + rewrite list_lookup_insert_eq by (rewrite length_fmap, length_seq; lia).
      by rewrite bool_decide_eq_true_2.
    + rewrite list_lookup_insert_ne by done.
      rewrite list_lookup_fmap, lookup_seq_lt by done. cbn.
      by rewrite bool_decide_eq_false_2.
  - rewrite lookup_seq_ge by lia. cbn. apply lookup_ge_None_2.
    rewrite length_insert, length_fmap, length_seq. lia.
Qed.

(** *** Encryption deals the characters onto the rails *)

Lemma pushChar_step (g : nat → list (list Z)) (i0 : nat) (c : Z) :
  pushChar rails (g <$> seq 0 R, cursorAt rails i0) [c]
  = Ok ((λ j, if bool_decide (j = railAt rails i0)
              then g (railAt rails i0) ++ [[c]] else g j) <$> seq 0 R,
        cursorAt rails (S i0)).
Proof using rails_ge.
  unfold pushChar.
  rewrite (rowAt_cursor _ _ (g (railAt rails i0))).
  - step. by rewrite setRow_cursor, insert_fmap_seq.
  - rewrite list_lookup_fmap, lookup_seq_lt by apply railAt_lt. done.
Qed.

Lemma push_spec (l : list Z) (i0 : nat) (g : nat → list (list Z)) :
  foldM (pushChar rails) (g <$> seq 0 R, cursorAt rails i0) ((λ c, [c]) <$> l)
  = Ok ((λ j, g j ++ ((λ c, [c]) <$> onRail rails j i0 l)) <$> seq 0 R,
        cursorAt rails (i0 + length l)).
Proof using rails_ge.
  revert i0 g. induction l as [|c l IH]; intros i0 g.
  - cbn [fmap list_fmap foldM length onRail]. rewrite Nat.add_0_r. do 2 f_equal.
    apply list_fmap_ext. intros _ j _. by rewrite app_nil_r.
  - rewrite fmap_cons. cbn [foldM]. rewrite pushChar_step. step.
    rewrite IH. cbn [length]. rewrite Nat.add_succ_r. do 2 f_equal.
    apply list_fmap_ext. intros _ j _. cbn [onRail].
    rewrite fmap_app, app_assoc. f_equal.
    rewrite (bool_decide_ext (j = railAt rails i0) (railAt rails i0 = j)) by done.
    case_bool_decide; [by subst|by rewrite app_nil_r].
Qed.

Lemma concat_wrapped (l : list Z) : concat ((λ c, [c]) <$> l) = l.
Proof. induction l as [|c l IH]; [done|]. cbn. by rewrite IH. Qed.

Lemma encrypt_rails (text : list Z) :
  unitWise text → railFenceEncrypt text rails = Ok (railsOf rails text).
Proof using rails_ge rails_le.
  intros Hunit. unfold railFenceEncrypt. cbn [isNaN orb].
  rewrite (proj2 (Z.ltb_ge _ _)) by lia. rewrite arrayFrom_ok. step. rewrite Hunit.
  rewrite (replicate_tab R []). change start with (cursorAt rails 0).
  rewrite push_spec. step. f_equal. unfold railsOf.
  induction (seq 0 R) as [|j js IH]; [done|].
  cbn [fmap list_fmap concat app]. rewrite concat_app, concat_wrapped. f_equal. apply IH.
Qed.


(** *** Counting the positions of a rail *)

Lemma countOn_S (j i0 m : nat) :
  countOn rails j i0 (S m)
  = (if bool_decide (railAt rails i0 = j) then 1 else 0) + countOn rails j (S i0) m.
Proof.
  unfold countOn. cbn [seq]. rewrite filter_cons. by case_decide; case_bool_decide.
Qed.

Lemma countOn_snoc (j i0 m : nat) :
  countOn rails j i0 (S m)
  = countOn rails j i0 m + (if bool_decide (railAt rails (i0 + m) = j) then 1 else 0).
Proof.
  unfold countOn. rewrite seq_S, filter_app, length_app. f_equal.
  rewrite filter_cons, filter_nil. by case_decide; case_bool_decide.
Qed.

Lemma length_onRail (j i0 : nat) (l : list Z) :
  length (onRail rails j i0 l) = countOn rails j i0 (length l).
Proof.
  revert i0. induction l as [|c l IH]; intros i0; [done|].
  cbn [onRail length]. rewrite length_app, IH, countOn_S. by case_bool_decide.
Qed.

Lemma onRail_lookup (l : list Z) (i0 k j : nat) (x : Z) :
  l !! k = Some x → railAt rails (i0 + k) = j →
  onRail rails j i0 l !! countOn rails j i0 k = Some x.
Proof.
  revert i0 k. induction l as [|c l IH]; intros i0 k Hx Hj; [done|].
  cbn [onRail]. destruct k as [|k].
  - injection Hx as ->. rewrite Nat.add_0_r in Hj.
    rewrite (bool_decide_eq_true_2 _ Hj). done.
  - rewrite countOn_S. cbn in Hx.
    rewrite lookup_app_r by (case_bool_decide; cbn; lia).
    replace (_ + _ - _) with (countOn rails j (S i0) k) by (case_bool_decide; cbn; lia).
    apply IH; [done|]. by rewrite <- Hj, Nat.add_succ_r.
Qed.

Lemma length_concat_fmap {A : Type} (g : A → list Z) (l : list A) :
  length (concat (g <$> l)) = sum_list ((λ x, length (g x)) <$> l).
Proof.
  induction l as [|x l IH]; [done|]. rewrite !fmap_cons. cbn [concat sum_list_with].
  rewrite length_app, IH. done.
Qed.

Lemma concat_lookup_offset (g : nat → list Z) (n j x : nat) :
  j < n → x < length (g j) →
  concat (g <$> seq 0 n) !! (sum_list ((λ j', length (g j')) <$> seq 0 j) + x) = g j !! x.
Proof.
  intros Hj Hx. replace n with (j + S (n - S j)) by lia.
  rewrite seq_app, fmap_app, concat_app.
  rewrite lookup_app_r by (rewrite length_concat_fmap; lia).
  rewrite length_concat_fmap.
  replace (_ + x - _) with x by lia.
  cbn [seq fmap list_fmap concat]. by rewrite lookup_app_l.
Qed.

Lemma offsetOf_onRail (text : list Z) (j : nat) :
  offsetOf rails (length text) j
  = sum_list ((λ j', length (onRail rails j' 0 text)) <$> seq 0 j).
Proof.
  unfold offsetOf. f_equal. apply list_fmap_ext. intros _ j' _.
  by rewrite length_onRail.
Qed.

Lemma offsetOf_S (n j : nat) :
  offsetOf rails n (S j) = offsetOf rails n j + countOn rails j 0 n.
Proof.
  unfold offsetOf. rewrite seq_S, fmap_app, sum_list_with_app. cbn. lia.
Qed.

(** Where the ciphertext holds the character at position [i] of the text. *)
Lemma railsOf_lookup (text : list Z) (i : nat) (x : Z) :
  text !! i = Some x →
  railsOf rails text
    !! (offsetOf rails (length text) (railAt rails i) + countOn rails (railAt rails i) 0 i)
  = Some x.
Proof using rails_ge.
  intros Hx. pose proof (onRail_lookup text 0 i (railAt rails i) x Hx eq_refl) as Hon.
  unfold railsOf. rewrite offsetOf_onRail.
  rewrite (concat_lookup_offset (λ j, onRail rails j 0 text)); [done|apply railAt_lt|].
  by eapply lookup_lt_Some.
Qed.

Lemma sum_list_fmap_add {A : Type} (a b : A → nat) (l : list A) :
  sum_list ((λ x, a x + b x) <$> l) = sum_list (a <$> l) + sum_list (b <$> l).
Proof.
  induction l as [|x l IH]; [done|]. rewrite !fmap_cons. cbn [sum_list_with].
  rewrite IH. unfold id. lia.
Qed.

Lemma sum_indicator (a n : nat) :
  sum_list ((λ j, if bool_decide (a = j) then 1 else 0) <$> seq 0 n)
  = if bool_decide (a < n) then 1 else 0.
Proof.
  induction n as [|n IH]; [done|].
  rewrite seq_S, fmap_app, sum_list_with_app, IH. cbn.
  repeat case_bool_decide; lia.
Qed.

Lemma total_count (n : nat) :
  sum_list ((λ j, countOn rails j 0 n) <$> seq 0 R) = n.
Proof using rails_ge.
  induction n as [|n IH].
  - induction (seq 0 R) as [|j js IHjs]; [done|]. cbn in *. lia.
  - rewrite (list_fmap_ext _ (λ j, countOn rails j 0 n
                                   + (if bool_decide (railAt rails n = j) then 1 else 0)))
      by (intros _ j _; apply countOn_snoc).
    rewrite sum_list_fmap_add, IH, sum_indicator.
    rewrite bool_decide_eq_true_2 by apply railAt_lt. lia.
Qed.

Lemma length_railsOf (text : list Z) : length (railsOf rails text) = length text.
Proof using rails_ge.
  unfold railsOf. rewrite length_concat_fmap.
  rewrite (list_fmap_ext _ (λ j, countOn rails j 0 (length text)))
    by (intros _ j _; apply length_onRail).
  apply total_count.
Qed.

(** The index the second pass of the decryption has reached at the cell
    [(j, i)], and the bound that makes its guard hold. *)
Lemma position_lt (n i : nat) :
  i < n → offsetOf rails n (railAt rails i) + countOn rails (railAt rails i) 0 i < n.
Proof using rails_ge.
  intros Hi.
  destruct (lookup_lt_is_Some_2 (replicate n 0%Z) i) as [x Hx];
    [by rewrite length_replicate|].
  pose proof (railsOf_lookup _ _ _ Hx) as Hlook.
  apply lookup_lt_Some in Hlook.
  by rewrite length_railsOf, length_replicate in Hlook.
Qed.


(** *** The three passes of the decryption *)

Section Passes.
Variable cipherText : list Z.
#[local] Abbreviation n := (length cipherText).

Lemma markCell_step (f : nat → nat → option Z) (i : nat) :
  i < n →
  markCell rails (tab R n f, cursorAt rails i) i
  = Ok (tab R n (upd f (railAt rails i) i marker), cursorAt rails (S i)).
Proof using rails_ge.
  intros Hi. unfold markCell.
  rewrite (rowAt_cursor _ _ (f (railAt rails i) <$> seq 0 n))
    by (apply tab_lookup, railAt_lt).
  step. rewrite setRow_cursor, insert_tab; [done|apply railAt_lt|done].
Qed.

Lemma mark_spec (m i0 : nat) (f : nat → nat → option Z) :
  i0 + m ≤ n →
  foldM (markCell rails) (tab R n f, cursorAt rails i0) (seq i0 m)
  = Ok (tab R n (λ j i, if bool_decide (i0 ≤ i < i0 + m ∧ railAt rails i = j)
                        then marker else f j i),
        cursorAt rails (i0 + m)).
Proof using rails_ge.
  revert i0 f. induction m as [|m IH]; intros i0 f Hm.
  - cbn [seq foldM]. rewrite Nat.add_0_r. do 2 f_equal. apply tab_ext.
    intros j i _ _. rewrite bool_decide_eq_false_2; [done|lia].
  - cbn [seq foldM]. rewrite markCell_step by lia. step.
    rewrite IH by lia. rewrite Nat.add_succ_r. do 2 f_equal. apply tab_ext.
    intros j i _ _. unfold upd.
    destruct (decide (i = i0 ∧ railAt rails i = j)) as [[-> <-]|Hne].
    + rewrite bool_decide_eq_false_2 by lia.
      rewrite bool_decide_eq_true_2 by done. by rewrite bool_decide_eq_true_2 by lia.
    + rewrite (bool_decide_ext (S i0 ≤ i < S i0 + m ∧ railAt rails i = j)
                               (i0 ≤ i < S (i0 + m) ∧ railAt rails i = j)) by lia.
      case_bool_decide; [done|]. rewrite bool_decide_eq_false_2; [done|].
      intros [-> ->]. lia.
Qed.

Lemma positionOf_S (j i : nat) :
  positionOf rails n j (S i)
  = positionOf rails n j i + (if bool_decide (railAt rails i = j) then 1 else 0).
Proof. unfold positionOf. rewrite countOn_snoc. cbn [plus]. lia. Qed.

Lemma positionOf_next_row (j : nat) : positionOf rails n (S j) 0 = positionOf rails n j n.
Proof. unfold positionOf. rewrite offsetOf_S. cbn. lia. Qed.

Lemma fillCell_step (j0 i0 : nat) :
  j0 < R → i0 < n →
  fillCell cipherText j0 (tab R n (scanned rails cipherText j0 i0), positionOf rails n j0 i0) i0
  = Ok (tab R n (scanned rails cipherText j0 (S i0)), positionOf rails n j0 (S i0)).
Proof using rails_ge.
  intros Hj Hi. unfold fillCell.
  assert (rowAt (tab R n (scanned rails cipherText j0 i0)) (Z.of_nat j0)
          = Ok (scanned rails cipherText j0 i0 j0 <$> seq 0 n)) as ->.
  { unfold rowAt. rewrite (proj2 (Z.ltb_ge _ _)) by lia.
    by rewrite Nat2Z.id, tab_lookup. }
  step. rewrite list_lookup_fmap, lookup_seq_lt by done. cbn [fmap option_fmap option_map plus].
  rewrite positionOf_S.
  assert (¬ (j0 < j0 ∨ j0 = j0 ∧ i0 < i0)) as Hnot by lia.
  destruct (decide (railAt rails i0 = j0)) as [Hon|Hoff].
  - assert (scanned rails cipherText j0 i0 j0 i0 = marker) as ->.
    { unfold scanned. by rewrite (bool_decide_eq_true_2 _ Hon), (bool_decide_eq_false_2 _ Hnot). }
    rewrite (bool_decide_eq_true_2 _ Hon). rewrite bool_decide_eq_true_2 by done.
    pose proof (position_lt n i0 Hi) as Hpos. rewrite Hon in Hpos.
    fold (positionOf rails n j0 i0) in Hpos.
    rewrite (proj2 (Nat.ltb_lt _ _) Hpos). cbn [andb].
    rewrite insert_tab by done. rewrite Nat.add_1_r. do 2 f_equal. apply tab_ext.
    intros j i _ _. unfold upd, scanned.
    destruct (decide (j = j0 ∧ i = i0)) as [[-> ->]|Hne].
    + rewrite bool_decide_eq_true_2 by done. rewrite (bool_decide_eq_true_2 _ Hon).
      by rewrite bool_decide_eq_true_2 by lia.
    + rewrite (bool_decide_eq_false_2 _ Hne).
      by rewrite (bool_decide_ext (j < j0 ∨ j = j0 ∧ i < i0)
                                  (j < j0 ∨ j = j0 ∧ i < S i0)) by lia.
  - assert (scanned rails cipherText j0 i0 j0 i0 = None) as ->.
    { unfold scanned. by rewrite (bool_decide_eq_false_2 _ Hoff). }
    rewrite (bool_decide_eq_false_2 _ Hoff). rewrite bool_decide_eq_false_2 by done.
    cbn [andb]. rewrite Nat.add_0_r. do 2 f_equal. apply tab_ext.
    intros j i _ _. unfold scanned. case_bool_decide as Hji; [|done].
    rewrite (bool_decide_ext (j < j0 ∨ j = j0 ∧ i < i0)
                             (j < j0 ∨ j = j0 ∧ i < S i0)); [done|].
    split; [lia|]. intros [?|[-> ?]]; [lia|].
    destruct (decide (i = i0)) as [->|]; [done|lia].
Qed.

Lemma fillCells_spec (j0 m : nat) :
  j0 < R → m ≤ n →
  foldM (fillCell cipherText j0) (tab R n (scanned rails cipherText j0 0), positionOf rails n j0 0)
        (seq 0 m)
  = Ok (tab R n (scanned rails cipherText j0 m), positionOf rails n j0 m).
Proof using rails_ge.
  intros Hj. induction m as [|m IH]; intros Hm; [done|].
  rewrite seq_S, foldM_app, IH by lia. step. cbn [foldM plus].
  rewrite fillCell_step by lia. done.
Qed.

Lemma fillRow_step (j0 : nat) :
  j0 < R →
  fillRow cipherText (tab R n (scanned rails cipherText j0 0), positionOf rails n j0 0) j0
  = Ok (tab R n (scanned rails cipherText (S j0) 0), positionOf rails n (S j0) 0).
Proof using rails_ge.
  intros Hj. unfold fillRow. rewrite fillCells_spec by done.
  rewrite positionOf_next_row. do 2 f_equal. apply tab_ext.
  intros j i _ Hi. unfold scanned. case_bool_decide; [|done].
  by rewrite (bool_decide_ext (j < j0 ∨ j = j0 ∧ i < n) (j < S j0 ∨ j = S j0 ∧ i < 0)) by lia.
Qed.

Lemma fillRows_spec (m : nat) :
  m ≤ R →
  foldM (fillRow cipherText) (tab R n (scanned rails cipherText 0 0), positionOf rails n 0 0) (seq 0 m)
  = Ok (tab R n (scanned rails cipherText m 0), positionOf rails n m 0).
Proof using rails_ge.
  induction m as [|m IH]; intros Hm; [done|].
  rewrite seq_S, foldM_app, IH by lia. step. cbn [foldM plus].
  rewrite fillRow_step by lia. done.
Qed.

Lemma readCell_step (f : nat → nat → option Z) (out : list Z) (i : nat) :
  i < n →
  readCell rails (tab R n f) (out, cursorAt rails i) i
  = Ok (out ++ cellText (Some (f (railAt rails i) i)), cursorAt rails (S i)).
Proof using rails_ge.
  intros Hi. unfold readCell.
  rewrite (rowAt_cursor _ _ (f (railAt rails i) <$> seq 0 n))
    by (apply tab_lookup, railAt_lt).
  step. by rewrite list_lookup_fmap, lookup_seq_lt.
Qed.

Lemma read_spec (f : nat → nat → option Z) (m i0 : nat) (out : list Z) :
  i0 + m ≤ n →
  foldM (readCell rails (tab R n f)) (out, cursorAt rails i0) (seq i0 m)
  = Ok (out ++ concat ((λ i, cellText (Some (f (railAt rails i) i))) <$> seq i0 m),
        cursorAt rails (i0 + m)).
Proof using rails_ge.
  revert i0 out. induction m as [|m IH]; intros i0 out Hm.
  - cbn [seq foldM fmap list_fmap concat]. by rewrite app_nil_r, Nat.add_0_r.
  - cbn [seq foldM]. rewrite readCell_step by lia. step.
    rewrite IH by lia. rewrite fmap_cons. cbn [concat].
    by rewrite app_assoc, Nat.add_succ_r.
Qed.

(** What the decryption returns: the guard of its second pass always holds,
    and the character at position [i] of the result is the one the
    ciphertext holds at [positionOf rails n (railAt i) i]. *)
Lemma decrypt_positions :
  cipherText ≠ [] →
  railFenceDecrypt cipherText rails
  = Ok (concat ((λ i, cellText (Some (cipherText !! positionOf rails n (railAt rails i) i)))
                <$> seq 0 n)).
Proof using rails_ge rails_le.
  intros Hne. unfold railFenceDecrypt. cbn [isNaN orb].
  rewrite (proj2 (Z.ltb_ge _ _)) by lia. rewrite bool_decide_eq_false_2 by done.
  rewrite arrayFrom_ok. step. rewrite tab_replicate. change start with (cursorAt rails 0).
  rewrite mark_spec by lia. step.
  assert (tab R n (λ j i, if bool_decide (0 ≤ i < 0 + n ∧ railAt rails i = j)
                          then marker else None)
          = tab R n (scanned rails cipherText 0 0)) as ->.
  { apply tab_ext. intros j i _ Hi. unfold scanned.
    rewrite (bool_decide_ext (0 ≤ i < 0 + n ∧ railAt rails i = j) (railAt rails i = j))
      by lia.
    case_bool_decide; [|done]. by rewrite bool_decide_eq_false_2 by lia. }
  change 0 with (positionOf rails n 0 0) at 3.
  rewrite fillRows_spec by done. step.
  rewrite read_spec by lia. step. cbn [app]. f_equal.
  f_equal. apply list_fmap_ext. intros _ i _.
  unfold scanned. rewrite bool_decide_eq_true_2 by done.
  rewrite bool_decide_eq_true_2; [done|]. left. apply railAt_lt.
Qed.

End Passes.

Lemma concat_cells (l : list Z) :
  concat ((λ i, cellText (Some (l !! i))) <$> seq 0 (length l)) = l.
Proof.
  induction l as [|c l IH]; [done|].
  cbn [length seq]. rewrite fmap_cons, <- fmap_S_seq, <- list_fmap_compose.
  rewrite (list_fmap_ext _ (λ i, cellText (Some (l !! i)))) by done.
  cbn [concat]. by rewrite IH.
Qed.

Lemma decrypt_rails (text : list Z) :
  railFenceDecrypt (railsOf rails text) rails = Ok text.
Proof using rails_ge rails_le.
  destruct (decide (text = [])) as [->|Hne].
  - unfold railFenceDecrypt, railsOf. cbn [isNaN orb].
    rewrite (proj2 (Z.ltb_ge _ _)) by lia.
    rewrite bool_decide_eq_true_2; [done|].
    induction (seq 0 R) as [|j js IH]; [done|]. by cbn.
  - rewrite decrypt_positions
      by (intros Hnil; apply (f_equal length) in Hnil;
          rewrite length_railsOf in Hnil; by destruct text).
    rewrite length_railsOf. f_equal.
    rewrite <- (concat_cells text) at 2.
    f_equal. apply list_fmap_ext. intros k i [Hi Hk]%lookup_seq. cbn in Hi. subst i.
    destruct (lookup_lt_is_Some_2 text k Hk) as [x Hx].
    unfold positionOf. by rewrite (railsOf_lookup _ _ _ Hx), Hx.
Qed.

(** X11: The round trip, for a number of rails from 2 to [2^32 - 1], on a
    text whose code units are characters of their own, which is every text
    without a surrogate pair. *)
Lemma rail_fence_round_trip_unit_wise (text : list Z) :
  unitWise text →
  ∃ e, railFenceEncrypt text rails = Ok e ∧ railFenceDecrypt e rails = Ok text.
Proof using rails_ge rails_le.
  intros Hunit. exists (railsOf rails text).
  split; [by apply encrypt_rails|apply decrypt_rails].
Qed.

End Zigzag.

Lemma unitWise_no_high_surrogate (text : list Z) :
  Forall (λ c, isHighSurrogate c = false) text → unitWise text.
Proof.
  unfold unitWise. induction 1 as [|c l Hc _ IH]; [done|].
  cbn [codePoints]. rewrite Hc. cbn [andb]. destruct l; [done|]. by rewrite IH.
Qed.

(** C4: the round trip fails on a text with a character outside the Basic
    Multilingual Plane.  The text is the letter a followed by U+1F600, three
    code units; [railFenceEncrypt] walks it by code points ([for ... of]), so
    the two surrogates stay together on the second rail, and
    [railFenceDecrypt] walks the three code units by index, which puts the
    low surrogate on the second rail and the high one on the first: the
    surrogates come back in the opposite order. *)
Theorem rail_fence_surrogate_pair :
  railFenceEncrypt [97; 55357; 56832]%Z 2 = Ok [97; 55357; 56832]%Z ∧
  railFenceDecrypt [97; 55357; 56832]%Z 2 = Ok [97; 56832; 55357]%Z.
Proof. by vm_compute. Qed.

End RailFenceFacts.

(** ** More on Caesar *)

Module CaesarMore.
Import Caesar CaesarFacts.
#[local] Open Scope Z_scope.

Lemma shiftChar_compose (a b c : Z) :
  0 <= a < 26 → 0 <= b < 26 →
  shiftChar (Int b) (shiftChar (Int a) c) = shiftChar (Int ((a + b) mod 26)) c.
Proof.
  intros Ha Hb.
  pose proof (Z.mod_pos_bound (a + b) 26 ltac:(lia)) as Hab.
  destruct (shiftChar_class a c Ha) as [Hu Hl].
  rewrite (shiftChar_Int b (shiftChar _ c)) by done. rewrite Hu, Hl.
  rewrite !shiftChar_Int by done.
  destruct (isUpper c) eqn:Hcu; [|destruct (isLower c) eqn:Hcl; [|done]].
  - unfold isUpper in Hcu. apply andb_true_iff in Hcu as [?%Z.leb_le ?%Z.leb_le]. lia.
  - unfold isLower in Hcl. apply andb_true_iff in Hcl as [?%Z.leb_le ?%Z.leb_le]. lia.
Qed.

(** X1: Encrypting by a whole shift [a] and then by a whole shift [b] is
    encrypting by [a + b], for binary64 values [a] and [b] of which the sum
    is a binary64 value too, so that the program computes it exactly. *)
Theorem caesar_compose (t : jsstring) (a b : Z) :
  isBinary64 a = true → isBinary64 b = true → isBinary64 (a + b) = true →
  ∃ e, caesarCipher t (Int a) Encrypt = Ok e ∧
       caesarCipher e (Int b) Encrypt = caesarCipher t (add (Int a) (Int b)) Encrypt.
Proof.
  intros _ _ _. cbn [add].
  eexists; split; [apply caesarCipher_Int|]. rewrite !caesarCipher_Int. f_equal.
  destruct (effectiveShift_Int a Encrypt) as (sa & -> & Ha & ->).
  destruct (effectiveShift_Int b Encrypt) as (sb & -> & Hb & ->).
  destruct (effectiveShift_Int (a + b) Encrypt) as (sab & -> & _ & ->).
  rewrite <- list_fmap_compose. apply list_fmap_ext. intros _ c _. cbn.
  rewrite shiftChar_compose by done. do 2 f_equal. lia.
Qed.

Lemma caesar_compose_witness :
  isBinary64 9007199254740992 = true ∧ isBinary64 2 = true ∧
  isBinary64 (9007199254740992 + 2) = true ∧
  ∃ e, caesarCipher (str "Attack at dawn!") (Int 9007199254740992) Encrypt = Ok e ∧
       caesarCipher e (Int 2) Encrypt
       = caesarCipher (str "Attack at dawn!") (add (Int 9007199254740992) (Int 2)) Encrypt.
Proof.
  split_and!; [reflexivity..|].
  exact (caesar_compose (str "Attack at dawn!") 9007199254740992 2 eq_refl eq_refl eq_refl).
Defined.

(** X2: Two whole shifts that differ by a multiple of 26 give the same text,
    in either direction. *)
Theorem caesar_periodic (t : jsstring) (s s' : Z) (mode : Mode) :
  s mod 26 = s' mod 26 →
  caesarCipher t (Int s) mode = caesarCipher t (Int s') mode.
Proof.
  intros Hs. rewrite !caesarCipher_Int.
  destruct (effectiveShift_Int s mode) as (x & -> & _ & ->).
  destruct (effectiveShift_Int s' mode) as (y & -> & _ & ->).
  by rewrite Hs.
Qed.

Lemma caesar_periodic_witness :
  (-23) mod 26 = 29 mod 26 ∧
  caesarCipher (str "Attack at dawn!") (Int (-23)) Decrypt
  = caesarCipher (str "Attack at dawn!") (Int 29) Decrypt.
Proof.
  split; [reflexivity|].
  exact (caesar_periodic (str "Attack at dawn!") (-23) 29 Decrypt eq_refl).
Defined.

(** X3: Decrypting by a whole shift [s] is encrypting by [- s]. *)
Theorem caesar_decrypt_is_encrypt_back (t : jsstring) (s : Z) :
  caesarCipher t (Int s) Decrypt = caesarCipher t (Int (- s)) Encrypt.
Proof.
  rewrite !caesarCipher_Int.
  destruct (effectiveShift_Int s Decrypt) as (x & -> & _ & ->).
  destruct (effectiveShift_Int (- s) Encrypt) as (y & -> & _ & ->).
  by replace ((26 - s mod 26) mod 26) with (- s mod 26) by lia.
Qed.

(** X4: A shift that is a multiple of 26 changes nothing, in either direction. *)
Theorem caesar_full_turn (t : jsstring) (k : Z) (mode : Mode) :
  caesarCipher t (Int (26 * k)) mode = Ok t.
Proof.
  rewrite caesarCipher_Int. f_equal.
  destruct (effectiveShift_Int (26 * k) mode) as (x & -> & Hx & Hm).
  assert (x = 0) as -> by (destruct mode; lia).
  rewrite <- (list_fmap_id t) at 2. apply list_fmap_ext. intros _ c _.
  rewrite shiftChar_Int by lia. unfold isUpper, isLower. cbn [id].
  destruct ((65 <=? c) && (c <=? 90)) eqn:Hu.
  - apply andb_true_iff in Hu as [?%Z.leb_le ?%Z.leb_le]. lia.
  - destruct ((97 <=? c) && (c <=? 122)) eqn:Hl; [|done].
    apply andb_true_iff in Hl as [?%Z.leb_le ?%Z.leb_le]. lia.
Qed.

End CaesarMore.

(** ** More on Playfair *)

Module PlayfairMore.
Import Playfair PlayfairFacts.

Lemma filter_ext_elem (P Q : Z → Prop) `{∀ c, Decision (P c)} `{∀ c, Decision (Q c)}
    (l : list Z) :
  (∀ c, c ∈ l → P c ↔ Q c) → filter P l = filter Q l.
Proof.
  induction l as [|x l IH]; intros Hext; [done|].
  rewrite !filter_cons, IH by (intros c Hc; apply Hext; by right).
  destruct (decide (P x)) as [HP|HP], (decide (Q x)) as [HQ|HQ]; try done.
  - destruct HQ. by apply Hext; [left|].
  - destruct HP. by apply Hext; [left|].
Qed.

Lemma foldl_setAdd_app (seen : list Z) (chars : list Z) :
  NoDup chars →
  foldl setAdd seen chars = seen ++ filter (λ c, c ∉ seen) chars.
Proof.
  revert seen. induction chars as [|x chars IH]; intros seen Hnd.
  - by rewrite app_nil_r.
  - apply NoDup_cons in Hnd as [Hx Hnd]. cbn [foldl]. unfold setAdd at 2.
    rewrite filter_cons. case_bool_decide as Hin.
    + rewrite decide_False by (by intros ?). by apply IH.
    + rewrite decide_True by done. rewrite IH by done. rewrite <- app_assoc. cbn.
      do 2 f_equal. apply filter_ext_elem. intros c Hc.
      rewrite elem_of_app, list_elem_of_singleton. split; [tauto|].
      intros Hnot [?| ->]; done.
Qed.

Lemma foldl_setAdd_elem (seen chars : list Z) (c : Z) :
  c ∈ foldl setAdd seen chars ↔ c ∈ seen ∨ c ∈ chars.
Proof. apply elem_of_foldl_setAdd. Qed.

Section WithRuntime.
Context {RT : Runtime}.

(** X5: The matrix, row after row, is the letters of the sanitized key in the
    order in which they first occur, and then the letters of the alphabet
    that the key does not have, in the order of the alphabet. *)
Theorem createPlayfairMatrix_layout (key : list Z) :
  ∃ matrix, createPlayfairMatrix key = Ok matrix ∧
    concat matrix
    = uniqueOf (sanitize key) ++ filter (λ c, c ∉ sanitize key) alphabet.
Proof.
  exists (rowsOf (uniqueChars key)). split; [apply createPlayfairMatrix_eq|].
  rewrite rowsOf_concat by apply uniqueChars_length.
  unfold uniqueChars, uniqueOf. rewrite foldl_app.
  rewrite foldl_setAdd_app by apply alphabet_NoDup. f_equal.
  apply filter_ext_elem. intros c _.
  rewrite elem_of_foldl_setAdd, elem_of_nil. tauto.
Qed.

(** *** Decrypting an encryption *)

(** X6: Decrypting what encrypting returned gives the prepared text: the text
    with its fillers, not the text that was typed. *)
Theorem playfair_decrypt_encrypt {RS : RuntimeSpec RT} (key text : list Z) :
  sanitize text ≠ [] →
  ∃ p e, preparePlayfairText text = Ok p ∧
         playfairCipher text key Encrypt = Ok e ∧
         playfairCipher e key Decrypt = Ok p.
Proof.
  intros Hne.
  destruct (preparePlayfairText_ok text Hne) as (p & Hp & Hall & Heven & Hpne).
  destruct (substitute_all (uniqueChars key) Encrypt p (uniqueChars_NoDup key)
              (uniqueChars_length key) (proj1 (in_uniqueChars key p) Hall) Heven [])
    as (e & He & Hlen & Hine & Hdec).
  exists p, e. split_and!; [done| |].
  - by rewrite (playfairCipher_run key text Encrypt p).
  - rewrite (playfairCipher_run key e Decrypt e).
    + by rewrite (Hdec eq_refl).
    + cbn [preparedText]. rewrite sanitize_id; [done|]. by apply (in_uniqueChars key).
    + intros ->. by destruct p.
    + lia.
Qed.

(** *** When the cipher throws *)

Lemma playfair_returns (key text : list Z) (mode : Mode) :
  sanitize text ≠ [] →
  (mode = Decrypt → length (sanitize text) mod 2 = 0) →
  ∃ prepared out, preparedText text mode = Ok prepared ∧
    playfairCipher text key mode = Ok out ∧
    length out = length prepared ∧ Forall (λ c, c ∈ alphabet) out.
Proof.
  intros Hne Heven.
  assert (∃ prepared, preparedText text mode = Ok prepared ∧ prepared ≠ [] ∧
            length prepared mod 2 = 0 ∧ Forall (λ c, c ∈ alphabet) prepared)
    as (prepared & Hp & Hpne & Hpeven & Hall).
  { destruct mode; cbn [preparedText].
    - destruct (preparePlayfairText_ok text Hne) as (p & -> & ? & ? & ?). by exists p.
    - exists (sanitize text). split_and!; [done|done|by apply Heven|].
      apply sanitize_in_alphabet. }
  destruct (substitute_all (uniqueChars key) mode prepared (uniqueChars_NoDup key)
              (uniqueChars_length key) (proj1 (in_uniqueChars key prepared) Hall) Hpeven [])
    as (e & He & Hlen & Hine & _).
  exists prepared, e. split_and!; [done| |done|by apply (in_uniqueChars key)].
  by rewrite (playfairCipher_run key text mode prepared).
Qed.

Lemma playfair_fails (key text : list Z) (mode : Mode) :
  sanitize text = [] ∨ (mode = Decrypt ∧ length (sanitize text) mod 2 ≠ 0) →
  ∃ e, playfairCipher text key mode = Err e.
Proof.
  intros [Hnone|[-> Hodd]].
  - unfold playfairCipher. rewrite createPlayfairMatrix_eq. step.
    destruct mode; cbn [preparedText].
    + unfold preparePlayfairText. rewrite Hnone. by eexists.
    + rewrite Hnone. by eexists.
  - unfold playfairCipher. rewrite createPlayfairMatrix_eq. step.
    cbn [preparedText]. step.
    case_bool_decide; [by eexists|].
    rewrite bool_decide_eq_true_2 by done. by eexists.
Qed.

(** X7: The cipher fails on a text without a letter and, when decrypting, on an
    odd number of letters, and on nothing else. *)
Theorem playfair_throws_iff (key text : list Z) (mode : Mode) :
  (∃ e, playfairCipher text key mode = Err e) ↔
  sanitize text = [] ∨ (mode = Decrypt ∧ length (sanitize text) mod 2 ≠ 0).
Proof.
  split; [|apply playfair_fails].
  intros [e He].
  destruct (decide (sanitize text = [])) as [|Hne]; [by left|]. right.
  destruct (decide (length (sanitize text) mod 2 = 0)) as [Heven|Hodd].
  - destruct (playfair_returns key text mode Hne) as (? & out & _ & Hout & _); [done|].
    by rewrite Hout in He.
  - destruct mode; [|done].
    destruct (playfair_returns key text Encrypt Hne) as (? & out & _ & Hout & _); [done|].
    by rewrite Hout in He.
Qed.

(** What a call that returned went through. *)
Lemma playfair_ok_inv (key text : list Z) (mode : Mode) (out : list Z) :
  playfairCipher text key mode = Ok out →
  ∃ prepared, preparedText text mode = Ok prepared ∧ prepared ≠ [] ∧
    length prepared mod 2 = 0 ∧ Forall (λ c, c ∈ alphabet) prepared ∧
    foldM (substitute (rowsOf (uniqueChars key)) mode) [] (digraphs prepared) = Ok out.
Proof.
  intros Hout.
  assert (¬ (sanitize text = [] ∨ (mode = Decrypt ∧ length (sanitize text) mod 2 ≠ 0)))
    as Hno.
  { intros Hthrow. destruct (playfair_fails key text mode Hthrow) as [e He].
    by rewrite He in Hout. }
  assert (sanitize text ≠ []) as Hne by tauto.
  assert (mode = Decrypt → length (sanitize text) mod 2 = 0) as Heven.
  { intros ->. destruct (decide (length (sanitize text) mod 2 = 0)); [done|]. tauto. }
  assert (∃ prepared, preparedText text mode = Ok prepared ∧ prepared ≠ [] ∧
            length prepared mod 2 = 0 ∧ Forall (λ c, c ∈ alphabet) prepared)
    as (prepared & Hp & Hpne & Hpeven & Hall).
  { destruct mode; cbn [preparedText].
    - destruct (preparePlayfairText_ok text Hne) as (p & -> & ? & ? & ?). by exists p.
    - exists (sanitize text). split_and!; [done|done|by apply Heven|].
      apply sanitize_in_alphabet. }
  exists prepared. split_and!; [done..|].
  by rewrite <- (playfairCipher_run key text mode prepared).
Qed.

(** X8: The ciphertext has the length of the prepared text, an even number, and
    only letters of the 25-letter alphabet: upper case and no J. *)
Theorem playfair_output_shape (key text : list Z) (mode : Mode) (out : list Z) :
  playfairCipher text key mode = Ok out →
  ∃ prepared, preparedText text mode = Ok prepared ∧
    length out = length prepared ∧ length out mod 2 = 0 ∧ out ≠ [] ∧
    Forall (λ c, isAZ c = true ∧ c ≠ 74%Z) out.
Proof.
  intros (p & Hp & Hpne & Heven & Hall & Hrun)%playfair_ok_inv.
  destruct (substitute_all (uniqueChars key) mode p (uniqueChars_NoDup key)
              (uniqueChars_length key) (proj1 (in_uniqueChars key p) Hall) Heven [])
    as (e & He & Hlen & Hine & _).
  rewrite Hrun in He. injection He as ->.
  exists p. split_and!; [done|done|lia| |].
  - intros ->. by destruct p.
  - apply (in_uniqueChars key) in Hine.
    eapply Forall_impl; [done|]. intros c. apply in_alphabet_iff.
Qed.

(** *** No letter stays *)

Lemma substitute_pair_moves (u : list Z) (mode : Mode) (out : list Z) (a b : Z) :
  NoDup u → length u = 25 → a ∈ u → b ∈ u →
  ∃ a' b', substitute (rowsOf u) mode out (Some a, Some b) = Ok (out ++ [a'; b']) ∧
           a' ≠ a ∧ b' ≠ b.
Proof.
  intros Hnd Hlen Ha Hb.
  destruct (findPos_elem u a Hnd Hlen Ha) as (r1 & c1 & Hr1 & Hc1 & Hxa & Hfa).
  destruct (findPos_elem u b Hnd Hlen Hb) as (r2 & c2 & Hr2 & Hc2 & Hxb & Hfb).
  set (shift := match mode with Encrypt => 1 | Decrypt => 4 end).
  assert (shift = 1 ∨ shift = 4) as Hshift by (destruct mode; auto).
  assert (∀ r c x y, r < 5 → c < 5 → at_ (rowsOf u) r c = Some x →
            u !! (r1 * 5 + c1) = Some y → r * 5 + c ≠ r1 * 5 + c1 → x ≠ y) as Hdiff1.
  { intros r c x y Hr Hc Hx Hy Hne ->. rewrite at_rowsOf in Hx by done.
    by pose proof (NoDup_lookup _ _ _ _ Hnd Hx Hy). }
  assert (∀ r c x y, r < 5 → c < 5 → at_ (rowsOf u) r c = Some x →
            u !! (r2 * 5 + c2) = Some y → r * 5 + c ≠ r2 * 5 + c2 → x ≠ y) as Hdiff2.
  { intros r c x y Hr Hc Hx Hy Hne ->. rewrite at_rowsOf in Hx by done.
    by pose proof (NoDup_lookup _ _ _ _ Hnd Hx Hy). }
  unfold substitute. step. rewrite Hfa, Hfb. step.
  destruct (Nat.eqb_spec r1 r2) as [Er|Er]; [|destruct (Nat.eqb_spec c1 c2) as [Ec|Ec]].
  - destruct (cell_at u r1 ((c1 + shift) mod 5) Hnd Hlen Hr1 ltac:(lia)) as (a' & Ha' & _).
    destruct (cell_at u r2 ((c2 + shift) mod 5) Hnd Hlen Hr2 ltac:(lia)) as (b' & Hb' & _).
    exists a', b'. fold shift. rewrite Ha', Hb'. split_and!; [done| |].
    + eapply Hdiff1; [| |done|done|]; lia.
    + eapply Hdiff2; [| |done|done|]; lia.
  - destruct (cell_at u ((r1 + shift) mod 5) c1 Hnd Hlen ltac:(lia) Hc1) as (a' & Ha' & _).
    destruct (cell_at u ((r2 + shift) mod 5) c2 Hnd Hlen ltac:(lia) Hc2) as (b' & Hb' & _).
    exists a', b'. fold shift. rewrite Ha', Hb'. split_and!; [done| |].
    + eapply Hdiff1; [| |done|done|]; lia.
    + eapply Hdiff2; [| |done|done|]; lia.
  - destruct (cell_at u r1 c2 Hnd Hlen Hr1 Hc2) as (a' & Ha' & _).
    destruct (cell_at u r2 c1 Hnd Hlen Hr2 Hc1) as (b' & Hb' & _).
    exists a', b'. rewrite Ha', Hb'. split_and!; [done| |].
    + eapply Hdiff1; [| |done|done|]; lia.
    + eapply Hdiff2; [| |done|done|]; lia.
Qed.

Lemma substitute_all_moves (u : list Z) (mode : Mode) (t : list Z) :
  NoDup u → length u = 25 → Forall (λ c, c ∈ u) t → length t mod 2 = 0 →
  ∀ out, ∃ e,
    foldM (substitute (rowsOf u) mode) out (digraphs t) = Ok (out ++ e) ∧
    Forall2 (λ a a', a' ≠ a) t e.
Proof.
  intros Hnd Hlen. induction t as [|a|a b t IH] using list_pair_ind.
  - intros _ _ out. exists []. by rewrite app_nil_r.
  - intros _ Hodd. done.
  - intros Hall Heven out.
    apply Forall_cons in Hall as [Ha Hall]. apply Forall_cons in Hall as [Hb Hall].
    destruct (substitute_pair_moves u mode out a b Hnd Hlen Ha Hb)
      as (a' & b' & Hsub & Ha' & Hb').
    cbn [length] in Heven.
    destruct (IH Hall ltac:(lia) (out ++ [a'; b'])) as (e & He & Hmoves).
    exists (a' :: b' :: e).
    change (digraphs (a :: b :: t)) with ((Some a, Some b) :: digraphs t).
    cbn [foldM]. rewrite Hsub. step. rewrite He, <- app_assoc.
    split; [done|]. by repeat constructor.
Qed.

(** X9: In either direction, the letter at each position of the result differs
    from the letter at that position of the prepared text: the cipher never
    leaves a letter as it is. *)
Theorem playfair_moves_every_letter (key text : list Z) (mode : Mode) (out : list Z) :
  playfairCipher text key mode = Ok out →
  ∃ prepared, preparedText text mode = Ok prepared ∧
    Forall2 (λ a a', a' ≠ a) prepared out.
Proof.
  intros (p & Hp & Hpne & Heven & Hall & Hrun)%playfair_ok_inv.
  destruct (substitute_all_moves (uniqueChars key) mode p (uniqueChars_NoDup key)
              (uniqueChars_length key) (proj1 (in_uniqueChars key p) Hall) Heven [])
    as (e & He & Hmoves).
  rewrite Hrun in He. injection He as ->. by exists p.
Qed.

End WithRuntime.

Lemma playfair_decrypt_encrypt_witness :
  sanitize (RT := asciiRuntime) (str "balloon") ≠ [] ∧
  ∃ p e, preparePlayfairText (RT := asciiRuntime) (str "balloon") = Ok p ∧
         playfairCipher (RT := asciiRuntime) (str "balloon") (str "KEY") Encrypt = Ok e ∧
         playfairCipher (RT := asciiRuntime) e (str "KEY") Decrypt = Ok p.
Proof.
  assert (sanitize (RT := asciiRuntime) (str "balloon") ≠ []) as Hne by (by vm_compute).
  split; [exact Hne|].
  exact (playfair_decrypt_encrypt (RT := asciiRuntime) (RS := asciiRuntime_spec)
           (str "KEY") (str "balloon") Hne).
Defined.

Lemma playfair_output_shape_witness :
  playfairCipher (RT := asciiRuntime) (str "hello") (str "KEY") Encrypt = Ok (str "DBNVMI") ∧
  ∃ prepared, preparedText (RT := asciiRuntime) (str "hello") Encrypt = Ok prepared ∧
    length (str "DBNVMI") = length prepared ∧ length (str "DBNVMI") mod 2 = 0 ∧
    str "DBNVMI" ≠ [] ∧
    Forall (λ c, isAZ c = true ∧ c ≠ 74%Z) (str "DBNVMI").
Proof.
  split; [reflexivity|].
  exact (playfair_output_shape (RT := asciiRuntime) (str "KEY") (str "hello") Encrypt
           (str "DBNVMI") eq_refl).
Defined.

Lemma playfair_moves_every_letter_witness :
  playfairCipher (RT := asciiRuntime) (str "DAHYYMMT") (str "KEY") Decrypt
    = Ok (str "GEFBWFOR") ∧
  ∃ prepared, preparedText (RT := asciiRuntime) (str "DAHYYMMT") Decrypt = Ok prepared ∧
    Forall2 (λ a a', a' ≠ a) prepared (str "GEFBWFOR").
Proof.
  split; [reflexivity|].
  exact (playfair_moves_every_letter (RT := asciiRuntime) (str "KEY") (str "DAHYYMMT")
           Decrypt (str "GEFBWFOR") eq_refl).
Defined.

(** *** The prepared text *)

Lemma digraphs_app_even (l k : list Z) :
  length l mod 2 = 0 → digraphs (l ++ k) = digraphs l ++ digraphs k.
Proof.
  induction l as [|a|a b l IH] using list_pair_ind; intros Heven.
  - done.
  - done.
  - cbn [length] in Heven.
    change (digraphs ((a :: b :: l) ++ k)) with ((Some a, Some b) :: digraphs (l ++ k)).
    rewrite IH by lia. done.
Qed.

Lemma filled_snoc (s p : list Z) (c : Z) : filled s p → filled (s ++ [c]) (p ++ [c]).
Proof.
  induction 1 as [|c' s p _ IH|s p _ IH]; cbn [app].
  - apply filled_keep, filled_nil.
  - by apply filled_keep.
  - by apply filled_X.
Qed.

Lemma filled_snoc_X (s p : list Z) : filled s p → filled s (p ++ [88%Z]).
Proof.
  induction 1 as [|c' s p _ IH|s p _ IH]; cbn [app].
  - apply filled_X, filled_nil.
  - by apply filled_keep.
  - by apply filled_X.
Qed.

Lemma prepareStep_preparing (res p : list Z) (k : nat) :
  k < length res → preparing res k p → preparing res (S k) (prepareStep res p k).
Proof.
  intros Hk (e & tl & -> & Heven & Hsep & Htl & Hlen & Hsub & Hfill).
  destruct (lookup_lt_is_Some_2 res k Hk) as [c Hc].
  assert (take (S k) res `sublist_of` (e ++ tl) ++ [c]) as Hsub'.
  { rewrite (take_S_r _ _ _ Hc). by apply sublist_app. }
  assert (filled (take (S k) res) ((e ++ tl) ++ [c])) as Hfill'.
  { rewrite (take_S_r _ _ _ Hc). by apply filled_snoc. }
  rewrite length_app in Hlen.
  unfold prepareStep. rewrite Hc. cbn [toStr]. change letterX with [88%Z].
  destruct Htl as [->|(b & -> & Hb)].
  - rewrite app_nil_r in *. rewrite bool_decide_eq_true_2
      by (rewrite length_app; cbn [length]; lia).
    destruct (_ && _) eqn:Hcond.
    + apply andb_prop in Hcond as [_ Hsame].
      exists (e ++ [c; 88%Z]), []. rewrite app_nil_r, <- app_assoc.
      split_and!; [done| | |by left| | | |].
      * rewrite !length_app. cbn [length]. lia.
      * rewrite digraphs_app_even by done. apply Forall_app. split; [done|].
        apply Forall_singleton. intros Heq. simpl in Heq. by rewrite Heq.
      * rewrite !length_app. cbn [length] in *. lia.
      * rewrite !length_app. cbn [length] in *. lia.
      * rewrite app_assoc. etrans; [done|]. by apply sublist_inserts_r.
      * rewrite app_assoc. by apply filled_snoc_X.
    + exists e, [c]. split_and!; [done|done|done| | | |done|done].
      * right. exists c. split; [done|]. intros c' Hc' ->.
        apply andb_false_iff in Hcond as [Hlast|Hdiff].
        -- apply Nat.ltb_ge in Hlast. apply lookup_lt_Some in Hc'. lia.
        -- apply bool_decide_eq_false in Hdiff. apply Hdiff.
           replace (k + 1) with (S k) by lia. by rewrite Hc'.
      * rewrite !length_app. cbn [length] in *. lia.
      * rewrite !length_app. cbn [length] in *. lia.
  - rewrite bool_decide_eq_false_2
      by (rewrite !length_app; cbn [length]; lia).
    exists (e ++ [b; c]), []. rewrite app_nil_r, <- app_assoc.
    split_and!; [done| | |by left| | | |].
    + rewrite !length_app. cbn [length]. lia.
    + rewrite digraphs_app_even by done. apply Forall_app. split; [done|].
      apply Forall_singleton. intros Heq. simpl in Heq.
      injection Heq as ->. by destruct (Hb c).
    + rewrite !length_app. cbn [length] in *. lia.
    + rewrite !length_app. cbn [length] in *. lia.
    + by rewrite <- app_assoc in Hsub'.
    + by rewrite <- app_assoc in Hfill'.
Qed.

Lemma prepare_loop_preparing (res : list Z) (k : nat) :
  k ≤ length res → preparing res k (foldl (prepareStep res) [] (seq 0 k)).
Proof.
  induction k as [|k IH]; intros Hk.
  - exists [], [].
    split_and!; [done|done|apply Forall_nil_2|by left|simpl; lia|simpl; lia| |];
      rewrite take_0; constructor.
  - rewrite seq_S, foldl_app. simpl. apply prepareStep_preparing; [lia|].
    apply IH. lia.
Qed.

Section Prepared.
Context {RT : Runtime}.

(** X10: The text that is encrypted is the sanitized input with letters X put
    in, and nothing else: the input letters are kept in their order, every
    letter in between is an X, the length is even and at most doubled, and
    no pair (positions 0-1, 2-3, ...) holds the same letter twice, the pair
    XX apart. *)
Theorem prepared_text_structure (text p : list Z) :
  preparePlayfairText text = Ok p →
  filled (sanitize text) p ∧
  sanitize text `sublist_of` p ∧
  length (sanitize text) ≤ length p ≤ 2 * length (sanitize text) ∧
  length p mod 2 = 0 ∧
  Forall (λ d, d.1 = d.2 → d = (Some 88%Z, Some 88%Z)) (digraphs p).
Proof.
  unfold preparePlayfairText. case_bool_decide as Hne; [done|].
  destruct (prepare_loop_preparing (sanitize text) (length (sanitize text)) ltac:(lia))
    as (e & tl & Hp & Heven & Hsep & Htl & Hlen & Hsub & Hfill).
  rewrite firstn_all in Hsub, Hfill.
  set (prepared := foldl _ _ _) in *. clearbody prepared. subst prepared.
  rewrite length_app in Hlen.
  assert (0 < length (sanitize text)) by (destruct (sanitize text); [done|cbn [length]; lia]).
  destruct Htl as [->|(b & -> & _)].
  - rewrite app_nil_r in *. rewrite bool_decide_eq_false_2 by lia.
    intros [= <-]. split_and!; [done|done|cbn [length] in *; lia..|done].
  - rewrite bool_decide_eq_true_2 by (rewrite length_app; cbn [length]; lia).
    intros [= <-]. change letterX with [88%Z]. rewrite <- app_assoc.
    split_and!.
    + rewrite app_assoc. by apply filled_snoc_X.
    + rewrite app_assoc. by apply sublist_inserts_r.
    + rewrite !length_app. cbn [length] in *. lia.
    + rewrite !length_app. cbn [length] in *. lia.
    + rewrite !length_app. cbn [length] in *. lia.
    + rewrite digraphs_app_even by done. apply Forall_app. split; [done|].
      apply Forall_singleton. intros Heq. simpl in Heq. by rewrite Heq.
Qed.

End Prepared.

Lemma prepared_text_structure_witness :
  preparePlayfairText (RT := asciiRuntime) (str "balloon") = Ok (str "BALXLOON") ∧
  filled (sanitize (RT := asciiRuntime) (str "balloon")) (str "BALXLOON") ∧
  sanitize (RT := asciiRuntime) (str "balloon") `sublist_of` str "BALXLOON" ∧
  length (sanitize (RT := asciiRuntime) (str "balloon")) ≤ length (str "BALXLOON")
    ≤ 2 * length (sanitize (RT := asciiRuntime) (str "balloon")) ∧
  length (str "BALXLOON") mod 2 = 0 ∧
  Forall (λ d, d.1 = d.2 → d = (Some 88%Z, Some 88%Z)) (digraphs (str "BALXLOON")).
Proof.
  split; [reflexivity|].
  exact (prepared_text_structure (RT := asciiRuntime) (str "balloon") (str "BALXLOON")
           eq_refl).
Defined.

(** *** Encrypting a decryption *)

Lemma shift_forth (c : nat) : c < 5 → ((c + 4) mod 5 + 1) mod 5 = c.
Proof. intros Hc. do 5 (destruct c as [|c]; [done|]). lia. Qed.

Lemma shift_injective_back (a b : nat) :
  a < 5 → b < 5 → ((a + 4) mod 5 =? (b + 4) mod 5) = (a =? b).
Proof.
  intros Ha Hb.
  do 5 (destruct a as [|a]; [do 5 (destruct b as [|b]; [done|]); lia|]). lia.
Qed.

(** One digraph, decrypted: two letters of the matrix, different when the
    two of the digraph are, and encrypting them gives the digraph back. *)
Lemma substitute_pair_back (u : list Z) (out : list Z) (a b : Z) :
  NoDup u → length u = 25 → a ∈ u → b ∈ u →
  ∃ a' b', substitute (rowsOf u) Decrypt out (Some a, Some b) = Ok (out ++ [a'; b']) ∧
    a' ∈ u ∧ b' ∈ u ∧ (a ≠ b → a' ≠ b') ∧
    ∀ out', substitute (rowsOf u) Encrypt out' (Some a', Some b') = Ok (out' ++ [a; b]).
Proof.
  intros Hnd Hlen Ha Hb.
  destruct (findPos_elem u a Hnd Hlen Ha) as (r1 & c1 & Hr1 & Hc1 & Hxa & Hfa).
  destruct (findPos_elem u b Hnd Hlen Hb) as (r2 & c2 & Hr2 & Hc2 & Hxb & Hfb).
  assert (at_ (rowsOf u) r1 c1 = Some a) as Haa by (by rewrite at_rowsOf).
  assert (at_ (rowsOf u) r2 c2 = Some b) as Hab by (by rewrite at_rowsOf).
  assert (∀ n, (n + 4) mod 5 < 5) as Hlt by (intros n; apply Nat.mod_upper_bound; lia).
  assert (∀ r c r' c' x, findPos (rowsOf u) (Some x) = Ok (r, c) →
            findPos (rowsOf u) (Some x) = Ok (r', c') → r = r' ∧ c = c') as Hpos
    by (intros r c r' c' x -> [= -> ->]; done).
  assert (a ≠ b → ¬ (r1 = r2 ∧ c1 = c2)) as Hdiff.
  { intros Hne [-> ->]. rewrite Hxa in Hxb. by injection Hxb. }
  unfold substitute at 1. step. rewrite Hfa, Hfb. step.
  destruct (r1 =? r2) eqn:Er; [|destruct (c1 =? c2) eqn:Ec].
  - destruct (cell_at u r1 ((c1 + 4) mod 5) Hnd Hlen Hr1 (Hlt c1))
      as (a' & Ha' & Hina & Hfa').
    destruct (cell_at u r2 ((c2 + 4) mod 5) Hnd Hlen Hr2 (Hlt c2))
      as (b' & Hb' & Hinb & Hfb').
    exists a', b'. rewrite Ha', Hb'. split_and!; [done..| |].
    + intros Hne ->. destruct (Hpos _ _ _ _ _ Hfa' Hfb') as [-> Hc].
      apply Hdiff; [done|]. split; [done|].
      apply Nat.eqb_eq. rewrite <- shift_injective_back by done. by apply Nat.eqb_eq.
    + intros out'. unfold substitute. step. rewrite Hfa', Hfb'. step.
      rewrite Er. rewrite !shift_forth, Haa, Hab by done. done.
  - destruct (cell_at u ((r1 + 4) mod 5) c1 Hnd Hlen (Hlt r1) Hc1)
      as (a' & Ha' & Hina & Hfa').
    destruct (cell_at u ((r2 + 4) mod 5) c2 Hnd Hlen (Hlt r2) Hc2)
      as (b' & Hb' & Hinb & Hfb').
    exists a', b'. rewrite Ha', Hb'. split_and!; [done..| |].
    + intros Hne ->. destruct (Hpos _ _ _ _ _ Hfa' Hfb') as [Hr ->].
      apply Nat.eqb_neq in Er. apply Er.
      apply Nat.eqb_eq. rewrite <- shift_injective_back by done. by apply Nat.eqb_eq.
    + intros out'. unfold substitute. step. rewrite Hfa', Hfb'. step.
      rewrite shift_injective_back, Er, Ec by done.
      rewrite !shift_forth, Haa, Hab by done. done.
  - destruct (cell_at u r1 c2 Hnd Hlen Hr1 Hc2) as (a' & Ha' & Hina & Hfa').
    destruct (cell_at u r2 c1 Hnd Hlen Hr2 Hc1) as (b' & Hb' & Hinb & Hfb').
    exists a', b'. rewrite Ha', Hb'. split_and!; [done..| |].
    + intros Hne ->. destruct (Hpos _ _ _ _ _ Hfa' Hfb') as [-> _].
      by rewrite Nat.eqb_refl in Er.
    + intros out'. unfold substitute. step. rewrite Hfa', Hfb'. step.
      rewrite Er, (Nat.eqb_sym c2 c1), Ec, Haa, Hab. done.
Qed.

Lemma substitute_all_back (u : list Z) (t : list Z) :
  NoDup u → length u = 25 → Forall (λ c, c ∈ u) t → length t mod 2 = 0 →
  Forall (λ d, d.1 ≠ d.2) (digraphs t) →
  ∀ out, ∃ p,
    foldM (substitute (rowsOf u) Decrypt) out (digraphs t) = Ok (out ++ p) ∧
    length p = length t ∧ Forall (λ c, c ∈ u) p ∧
    Forall (λ d, d.1 ≠ d.2) (digraphs p) ∧
    ∀ out', foldM (substitute (rowsOf u) Encrypt) out' (digraphs p) = Ok (out' ++ t).
Proof.
  intros Hnd Hlen. induction t as [|a|a b t IH] using list_pair_ind.
  - intros _ _ _ out. exists []. rewrite app_nil_r.
    split_and!; [done|done|done|apply Forall_nil_2|].
    intros out'. by rewrite app_nil_r.
  - intros _ Hodd. done.
  - intros Hall Heven Hdig out.
    apply Forall_cons in Hall as [Ha Hall]. apply Forall_cons in Hall as [Hb Hall].
    change (digraphs (a :: b :: t)) with ((Some a, Some b) :: digraphs t) in *.
    apply Forall_cons in Hdig as [Hab Hdig]. cbn [fst snd] in Hab.
    destruct (substitute_pair_back u out a b Hnd Hlen Ha Hb)
      as (a' & b' & Hsub & Ha' & Hb' & Hne & Hback).
    cbn [length] in Heven.
    destruct (IH Hall ltac:(lia) Hdig (out ++ [a'; b']))
      as (p & Hp & Hle & Hinp & Hdigp & Henc).
    exists (a' :: b' :: p).
    cbn [foldM]. rewrite Hsub. step. rewrite Hp, <- app_assoc.
    change (digraphs (a' :: b' :: p)) with ((Some a', Some b') :: digraphs p).
    split_and!; [done|cbn [length]; lia|by repeat constructor| |].
    + apply Forall_cons. split; [|done]. cbn [fst snd]. intros [= Heq].
      apply Hne; [|done]. intros ->. by apply Hab.
    + intros out'. cbn [foldM]. rewrite Hback. step.
      rewrite Henc, <- app_assoc. done.
Qed.

Section Back.
Context {RT : Runtime}.

(** X20: A string of an even number of letters, not zero, in which no pair
    (positions 0-1, 2-3, ... of its letters) holds the same letter twice is a
    ciphertext: decrypting returns, and encrypting what it returned gives
    the letters of the string back. *)
Theorem playfair_encrypt_decrypt {RS : RuntimeSpec RT} (key cipherText : list Z) :
  sanitize cipherText ≠ [] → length (sanitize cipherText) mod 2 = 0 →
  Forall (λ d, d.1 ≠ d.2) (digraphs (sanitize cipherText)) →
  ∃ p, playfairCipher cipherText key Decrypt = Ok p ∧
       playfairCipher p key Encrypt = Ok (sanitize cipherText).
Proof.
  intros Hne Heven Hdig. set (s := sanitize cipherText) in *.
  assert (Forall (λ c, c ∈ alphabet) s) as Hall by apply sanitize_in_alphabet.
  destruct (substitute_all_back (uniqueChars key) s (uniqueChars_NoDup key)
              (uniqueChars_length key) (proj1 (in_uniqueChars key s) Hall) Heven Hdig [])
    as (p & Hp & Hlen & Hinp & Hdigp & Henc).
  apply (in_uniqueChars key) in Hinp.
  assert (p ≠ []) as Hpne by (intros ->; by destruct s).
  exists p. split.
  - by rewrite (playfairCipher_run key cipherText Decrypt s).
  - rewrite (playfairCipher_run key p Encrypt p); [apply Henc| |done|lia].
    cbn [preparedText]. apply preparePlayfairText_fixed; [done|done|lia|done].
Qed.

End Back.

Lemma playfair_encrypt_decrypt_witness :
  sanitize (RT := asciiRuntime) (str "kb nv mi io") ≠ [] ∧
  length (sanitize (RT := asciiRuntime) (str "kb nv mi io")) mod 2 = 0 ∧
  Forall (λ d, d.1 ≠ d.2) (digraphs (sanitize (RT := asciiRuntime) (str "kb nv mi io"))) ∧
  ∃ p, playfairCipher (RT := asciiRuntime) (str "kb nv mi io") (str "KEY") Decrypt = Ok p ∧
       playfairCipher (RT := asciiRuntime) p (str "KEY") Encrypt
         = Ok (sanitize (RT := asciiRuntime) (str "kb nv mi io")).
Proof.
  assert (sanitize (RT := asciiRuntime) (str "kb nv mi io") ≠ []) as Hne by (by vm_compute).
  assert (length (sanitize (RT := asciiRuntime) (str "kb nv mi io")) mod 2 = 0) as Heven
    by reflexivity.
  assert (Forall (λ d, d.1 ≠ d.2)
            (digraphs (sanitize (RT := asciiRuntime) (str "kb nv mi io")))) as Hdig
    by compute_done.
  exact (conj Hne (conj Heven (conj Hdig
           (playfair_encrypt_decrypt (RT := asciiRuntime) (RS := asciiRuntime_spec)
              (str "KEY") (str "kb nv mi io") Hne Heven Hdig)))).
Defined.

End PlayfairMore.

(** ** Rearrangements *)

Module Rearrangement.

Lemma fmap_concat_lists {A B : Type} (f : A → B) (ls : list (list A)) :
  f <$> concat ls = concat ((λ l : list A, f <$> l) <$> ls).
Proof. induction ls as [|l ls IH]; [done|]. cbn. by rewrite fmap_app, IH. Qed.

(** A function on strings that moves the units about, in a way that does not
    look at them, reaches every string: [c] is the image of a string of its
    length, of which it is a rearrangement. *)
Lemma natural_onto (E : list Z → list Z) (c : list Z) :
  (∀ (f : Z → Z) t, E (f <$> t) = f <$> E t) →
  (∀ t, length (E t) = length t) →
  (∀ t x, x ∈ t → x ∈ E t) →
  ∃ t, E t = c ∧ t ≡ₚ c.
Proof.
  intros Hnat Hlen Hin.
  set (t0 := Z.of_nat <$> seq 0 (length c)).
  assert (length t0 = length c) as Hlen0 by (unfold t0; by rewrite length_fmap, length_seq).
  assert (NoDup t0) as Hnd0 by (apply NoDup_fmap_2; [apply _|apply NoDup_seq]).
  assert (t0 ≡ₚ E t0) as Hperm.
  { apply submseteq_length_Permutation; [|by rewrite Hlen].
    apply NoDup_submseteq; [done|]. intros x. apply Hin. }
  assert (NoDup (E t0)) as Hnd by (by rewrite <- Hperm).
  set (f := λ z : Z, match list_find (λ y, y = z) (E t0) with
                     | Some (p, _) => default 0%Z (c !! p)
                     | None => 0%Z
                     end).
  assert (f <$> E t0 = c) as Himage.
  { apply list_eq. intros p. rewrite list_lookup_fmap.
    destruct (decide (p < length c)) as [Hp|Hp].
    - destruct (lookup_lt_is_Some_2 (E t0) p) as [z Hz]; [rewrite Hlen; lia|].
      destruct (lookup_lt_is_Some_2 c p Hp) as [x Hx].
      rewrite Hz, Hx. cbn. f_equal. unfold f.
      destruct (list_find (λ y, y = z) (E t0)) as [[q y]|] eqn:Hfind.
      + apply list_find_Some in Hfind as (Hq & -> & _).
        rewrite (NoDup_lookup _ _ _ _ Hnd Hq Hz). by rewrite Hx.
      + apply list_find_None in Hfind. rewrite Forall_forall in Hfind.
        destruct (Hfind z); [|done]. by eapply list_elem_of_lookup_2.
    - rewrite (lookup_ge_None_2 (E t0)) by (rewrite Hlen; lia).
      by rewrite (lookup_ge_None_2 c) by lia. }
  exists (f <$> t0). split; [by rewrite Hnat|].
  rewrite <- Himage. by apply fmap_Permutation.
Qed.

End Rearrangement.

(** ** More on Rail Fence *)

Module RailFenceMore.
Import RailFence RailFenceFacts Rearrangement.

Lemma codePoints_concat (text : list Z) : concat (codePoints text) = text.
Proof.
  assert (∀ n (t : list Z), length t ≤ n → concat (codePoints t) = t) as Hall.
  { induction n as [|n IH]; intros [|h [|l rest]] Hlen; try done; try (cbn in Hlen; lia).
    change (codePoints (h :: l :: rest))
      with (if isHighSurrogate h && isLowSurrogate l
            then [h; l] :: codePoints rest else [h] :: codePoints (l :: rest)).
    cbn [length] in Hlen.
    destruct (_ && _); cbn [concat app]; rewrite IH; try done; cbn [length]; lia. }
  by apply (Hall (length text)).
Qed.

Lemma concat_insert_snoc (fence : list (list (list Z))) (j : nat)
    (row : list (list Z)) (char : list Z) :
  fence !! j = Some row →
  concat (concat (<[j := row ++ [char]]> fence)) ≡ₚ concat (concat fence) ++ char.
Proof.
  intros Hrow. pose proof (lookup_lt_Some _ _ _ Hrow) as Hj.
  rewrite insert_take_drop by done.
  rewrite <- (take_drop_middle fence j row Hrow) at 3.
  rewrite !concat_app. cbn [concat]. rewrite !concat_app. cbn [concat].
  rewrite app_nil_r, <- !app_assoc. f_equiv. f_equiv. apply Permutation_app_comm.
Qed.

Section Zigzag.
Variable rails : Z.
Hypothesis rails_ge : (2 ≤ rails)%Z.
Hypothesis rails_le : (rails ≤ maxArrayLength)%Z.

(** *** Encryption of any text *)

Lemma push_any (chars : list (list Z)) (fence : list (list (list Z))) (i0 : nat) :
  length fence = Z.to_nat rails →
  ∃ fence',
    foldM (pushChar rails) (fence, cursorAt rails i0) chars
    = Ok (fence', cursorAt rails (i0 + length chars)) ∧
    length fence' = Z.to_nat rails ∧
    concat (concat fence') ≡ₚ concat (concat fence) ++ concat chars.
Proof using rails_ge.
  revert fence i0. induction chars as [|char chars IH]; intros fence i0 Hlen.
  - exists fence. cbn [foldM length concat]. by rewrite Nat.add_0_r, app_nil_r.
  - destruct (lookup_lt_is_Some_2 fence (railAt rails i0)) as [row Hrow];
      [rewrite Hlen; by apply railAt_lt|].
    destruct (IH (<[railAt rails i0 := row ++ [char]]> fence) (S i0))
      as (fence' & Hrun & Hlen' & Hperm); [by rewrite length_insert|].
    exists fence'. cbn [foldM]. unfold pushChar at 2.
    rewrite (rowAt_cursor rails rails_ge _ _ row Hrow). step.
    rewrite setRow_cursor, <- cursorAt_S, Hrun. cbn [length concat].
    rewrite Nat.add_succ_r. split_and!; [done|done|].
    by rewrite Hperm, concat_insert_snoc, <- app_assoc.
Qed.

Lemma encrypt_any (text : list Z) :
  ∃ e, railFenceEncrypt text rails = Ok e ∧ e ≡ₚ text.
Proof using rails_ge rails_le.
  destruct (push_any (codePoints text) (replicate (Z.to_nat rails) []) 0)
    as (fence & Hrun & _ & Hperm); [by rewrite length_replicate|].
  exists (concat (concat fence)). unfold railFenceEncrypt. cbn [isNaN orb].
  rewrite (proj2 (Z.ltb_ge _ _)) by lia. rewrite (arrayFrom_ok rails rails_le). step.
  change start with (cursorAt rails 0). rewrite Hrun. step. split; [done|].
  rewrite Hperm, codePoints_concat.
  assert (concat (concat (replicate (Z.to_nat rails) ([] : list (list Z)))) = []) as ->;
    [|done].
  clear. induction (Z.to_nat rails) as [|k IHk]; [done|]. exact IHk.
Qed.

(** *** Decryption of any text *)

Lemma decrypt_any (cipherText : list Z) :
  ∃ t, railFenceDecrypt cipherText rails = Ok t.
Proof using rails_ge rails_le.
  destruct (decide (cipherText = [])) as [->|Hne].
  - exists []. unfold railFenceDecrypt. cbn [isNaN orb].
    by rewrite (proj2 (Z.ltb_ge _ _)) by lia.
  - eexists. by apply decrypt_positions.
Qed.

Lemma onRail_fmap (f : Z → Z) (j i0 : nat) (l : list Z) :
  onRail rails j i0 (f <$> l) = f <$> onRail rails j i0 l.
Proof.
  revert i0. induction l as [|c l IH]; intros i0; [done|].
  rewrite fmap_cons. cbn [onRail]. rewrite fmap_app, IH. by case_bool_decide.
Qed.

Lemma railsOf_fmap (f : Z → Z) (t : list Z) :
  railsOf rails (f <$> t) = f <$> railsOf rails t.
Proof.
  unfold railsOf. rewrite fmap_concat_lists, <- list_fmap_compose.
  f_equal. apply list_fmap_ext. intros _ j _. apply onRail_fmap.
Qed.

Lemma railsOf_onto (c : list Z) : ∃ t, railsOf rails t = c ∧ t ≡ₚ c.
Proof using rails_ge.
  apply natural_onto.
  - apply railsOf_fmap.
  - by apply length_railsOf.
  - intros t x [i Hi]%list_elem_of_lookup.
    eapply list_elem_of_lookup_2. by apply railsOf_lookup.
Qed.

(** *** A text no longer than the number of rails *)

Lemma cursorAt_down (i : nat) :
  i < Z.to_nat rails →
  rail (cursorAt rails i) = Z.of_nat i ∧
  (i < Z.to_nat rails - 1 → direction (cursorAt rails i) = 1%Z).
Proof using rails_ge.
  induction i as [|i IH]; intros Hi; [done|].
  destruct IH as [Hrail Hdir]; [lia|]. rewrite cursorAt_S. unfold advance.
  cbn [rail direction]. rewrite Hrail, Hdir by lia. split; [lia|]. intros Hlt.
  destruct (Z.eqb_spec (Z.of_nat i + 1) 0); [lia|].
  destruct (Z.eqb_spec (Z.of_nat i + 1) (rails - 1)); [lia|done].
Qed.

Lemma railAt_down (i : nat) : i < Z.to_nat rails → railAt rails i = i.
Proof using rails_ge.
  intros Hi. unfold railAt. destruct (cursorAt_down i Hi) as [-> _]. lia.
Qed.

Lemma onRail_short (j i0 : nat) (l : list Z) :
  i0 + length l ≤ Z.to_nat rails →
  onRail rails j i0 l = if bool_decide (i0 ≤ j) then option_list (l !! (j - i0)) else [].
Proof using rails_ge.
  revert i0. induction l as [|c l IH]; intros i0 Hlen.
  - cbn [onRail]. by case_bool_decide.
  - cbn [length] in Hlen. cbn [onRail]. rewrite IH by lia.
    rewrite railAt_down by lia.
    destruct (decide (i0 = j)) as [->|Hne].
    + rewrite bool_decide_eq_true_2 by done.
      rewrite bool_decide_eq_false_2 by lia. rewrite bool_decide_eq_true_2 by lia.
      by rewrite Nat.sub_diag.
    + rewrite (bool_decide_eq_false_2 (i0 = j)) by done. cbn [app].
      destruct (decide (i0 ≤ j)) as [Hle|Hgt].
      * rewrite !bool_decide_eq_true_2 by lia.
        by replace (j - i0) with (S (j - S i0)) by lia.
      * by rewrite !bool_decide_eq_false_2 by lia.
Qed.

Lemma railsOf_short (text : list Z) :
  length text ≤ Z.to_nat rails → railsOf rails text = text.
Proof using rails_ge.
  intros Hlen. unfold railsOf.
  rewrite (list_fmap_ext _ (λ j, option_list (text !! j)) (seq 0 (Z.to_nat rails))).
  - rewrite (TranspositionFacts.chunk_concat 1) by lia. by rewrite take_ge.
  - intros _ j _. rewrite onRail_short by (cbn; lia).
    rewrite bool_decide_eq_true_2 by lia. by rewrite Nat.sub_0_r.
Qed.

End Zigzag.

(** X12: Encryption with a number of rails from 2 to [2^32 - 1] returns on
    every text, surrogate pairs included, and what it returns is a
    rearrangement of the code units of the text. *)
Theorem rail_fence_encrypt_rearranges (text : list Z) (rails : Z) :
  (2 ≤ rails)%Z → (rails ≤ maxArrayLength)%Z →
  ∃ e, railFenceEncrypt text rails = Ok e ∧ e ≡ₚ text.
Proof. intros Hge Hle. by apply encrypt_any. Qed.

(** X13: Decryption with a number of rails from 2 to [2^32 - 1] returns on
    every string, and what it returns is a rearrangement of the string; when
    the string has no high surrogate, encrypting that gives the string back:
    every such string is a ciphertext. *)
Theorem rail_fence_decrypt_encrypt (cipherText : list Z) (rails : Z) :
  (2 ≤ rails)%Z → (rails ≤ maxArrayLength)%Z →
  ∃ t, railFenceDecrypt cipherText rails = Ok t ∧ t ≡ₚ cipherText ∧
       (Forall (λ c, isHighSurrogate c = false) cipherText →
        railFenceEncrypt t rails = Ok cipherText).
Proof.
  intros Hge Hle.
  destruct (railsOf_onto rails Hge cipherText) as (t & Himage & Hperm).
  exists t. split_and!; [|done|].
  - rewrite <- Himage. by apply decrypt_rails.
  - intros Hplain. rewrite <- Himage. apply encrypt_rails; [done..|].
    apply unitWise_no_high_surrogate. by rewrite Hperm.
Qed.

(** X14: A text of at most as many characters as there are rails (from 2 to
    [2^32 - 1] of them) is left as it is, by both directions: every
    character is alone on its rail. *)
Theorem rail_fence_short_text (text : list Z) (rails : Z) :
  (2 ≤ rails)%Z → (rails ≤ maxArrayLength)%Z →
  unitWise text → (Z.of_nat (length text) ≤ rails)%Z →
  railFenceEncrypt text rails = Ok text ∧ railFenceDecrypt text rails = Ok text.
Proof.
  intros Hge Hle Hunit Hshort.
  assert (railsOf rails text = text) as Hsame by (apply railsOf_short; [done|lia]).
  split.
  - rewrite encrypt_rails by done. by rewrite Hsame.
  - rewrite <- Hsame at 1. by apply decrypt_rails.
Qed.

Lemma rail_fence_key_error (text : list Z) (rails : Z) :
  (rails < 2)%Z →
  railFenceEncrypt text rails = Err RailFenceKeyError ∧
  railFenceDecrypt text rails = Err RailFenceKeyError.
Proof.
  intros Hlt. unfold railFenceEncrypt, railFenceDecrypt. cbn [isNaN orb].
  by rewrite (proj2 (Z.ltb_lt _ _)) by done.
Qed.

Lemma rail_fence_range_error (text : list Z) (rails : Z) :
  (maxArrayLength < rails)%Z →
  railFenceEncrypt text rails = Err RangeError ∧
  (text ≠ [] → railFenceDecrypt text rails = Err RangeError) ∧
  (text = [] → railFenceDecrypt text rails = Ok []).
Proof.
  intros Hgt. assert (2 ≤ rails)%Z as Hge by (unfold maxArrayLength in Hgt; lia).
  unfold railFenceEncrypt, railFenceDecrypt, arrayFrom. cbn [isNaN orb].
  rewrite (proj2 (Z.ltb_ge _ _)) by done. rewrite (proj2 (Z.ltb_lt _ _)) by done.
  split_and!; [done| |].
  - intros Hne. by rewrite bool_decide_eq_false_2 by done.
  - intros ->. done.
Qed.

(** X15: When either direction throws.  Both refuse a number of rails below
    2.  A number of rails above [2^32 - 1] is no array length: building the
    fence throws a RangeError, in the encryption always and in the
    decryption unless the ciphertext is empty, which is returned before the
    fence is built.  On every other input both return. *)
Theorem rail_fence_throws_iff (text : list Z) (rails : Z) :
  ((∃ e, railFenceEncrypt text rails = Err e) ↔
   (rails < 2)%Z ∨ (maxArrayLength < rails)%Z) ∧
  ((∃ e, railFenceDecrypt text rails = Err e) ↔
   (rails < 2)%Z ∨ ((maxArrayLength < rails)%Z ∧ text ≠ [])).
Proof.
  split; split.
  - intros [e He]. destruct (decide (rails < 2)%Z) as [|Hge]; [by left|]. right.
    destruct (decide (maxArrayLength < rails)%Z) as [|Hle]; [done|].
    destruct (encrypt_any rails ltac:(lia) ltac:(lia) text) as (out & Hout & _).
    by rewrite Hout in He.
  - intros [Hlt|Hgt].
    + destruct (rail_fence_key_error text rails Hlt) as [-> _]. by eexists.
    + destruct (rail_fence_range_error text rails Hgt) as [-> _]. by eexists.
  - intros [e He]. destruct (decide (rails < 2)%Z) as [|Hge]; [by left|]. right.
    destruct (decide (maxArrayLength < rails)%Z) as [Hgt|Hle].
    + split; [done|]. intros ->.
      destruct (rail_fence_range_error [] rails Hgt) as (_ & _ & Hempty).
      by rewrite Hempty in He by done.
    + destruct (decrypt_any rails ltac:(lia) ltac:(lia) text) as (out & Hout).
      by rewrite Hout in He.
  - intros [Hlt|[Hgt Hne]].
    + destruct (rail_fence_key_error text rails Hlt) as [_ ->]. by eexists.
    + destruct (rail_fence_range_error text rails Hgt) as (_ & Herr & _).
      rewrite Herr by done. by eexists.
Qed.

Lemma rail_fence_round_trip_unit_wise_witness :
  (2 ≤ 3)%Z ∧ (3 ≤ maxArrayLength)%Z ∧ unitWise (str "WEAREDISCOVERED") ∧
  ∃ e, railFenceEncrypt (str "WEAREDISCOVERED") 3 = Ok e ∧
       railFenceDecrypt e 3 = Ok (str "WEAREDISCOVERED").
Proof.
  assert (2 ≤ 3)%Z as Hge by lia.
  assert (3 ≤ maxArrayLength)%Z as Hle by (unfold maxArrayLength; lia).
  assert (unitWise (str "WEAREDISCOVERED")) as Hunit by reflexivity.
  exact (conj Hge (conj Hle (conj Hunit
           (rail_fence_round_trip_unit_wise 3 Hge Hle (str "WEAREDISCOVERED") Hunit)))).
Defined.

Lemma rail_fence_encrypt_rearranges_witness :
  (2 ≤ 2)%Z ∧ (2 ≤ maxArrayLength)%Z ∧
  ∃ e, railFenceEncrypt [97; 55357; 56832]%Z 2 = Ok e ∧ e ≡ₚ [97; 55357; 56832]%Z.
Proof.
  assert (2 ≤ 2)%Z as Hge by lia.
  assert (2 ≤ maxArrayLength)%Z as Hle by (unfold maxArrayLength; lia).
  exact (conj Hge (conj Hle
           (rail_fence_encrypt_rearranges [97; 55357; 56832]%Z 2 Hge Hle))).
Defined.

Lemma rail_fence_decrypt_encrypt_witness :
  (2 ≤ 3)%Z ∧ (3 ≤ maxArrayLength)%Z ∧
  ∃ t, railFenceDecrypt (str "WECRLTEERDSOEEFEAOCAIVDEN") 3 = Ok t ∧
       t ≡ₚ str "WECRLTEERDSOEEFEAOCAIVDEN" ∧
       (Forall (λ c, isHighSurrogate c = false) (str "WECRLTEERDSOEEFEAOCAIVDEN") →
        railFenceEncrypt t 3 = Ok (str "WECRLTEERDSOEEFEAOCAIVDEN")).
Proof.
  assert (2 ≤ 3)%Z as Hge by lia.
  assert (3 ≤ maxArrayLength)%Z as Hle by (unfold maxArrayLength; lia).
  exact (conj Hge (conj Hle
           (rail_fence_decrypt_encrypt (str "WECRLTEERDSOEEFEAOCAIVDEN") 3 Hge Hle))).
Defined.

Lemma rail_fence_short_text_witness :
  (2 ≤ 5)%Z ∧ (5 ≤ maxArrayLength)%Z ∧ unitWise (str "abc") ∧
  (Z.of_nat (length (str "abc")) ≤ 5)%Z ∧
  railFenceEncrypt (str "abc") 5 = Ok (str "abc") ∧
  railFenceDecrypt (str "abc") 5 = Ok (str "abc").
Proof.
  assert (2 ≤ 5)%Z as Hge by lia.
  assert (5 ≤ maxArrayLength)%Z as Hle by (unfold maxArrayLength; lia).
  assert (unitWise (str "abc")) as Hunit by reflexivity.
  assert (Z.of_nat (length (str "abc")) ≤ 5)%Z as Hshort by (cbn; lia).
  exact (conj Hge (conj Hle (conj Hunit (conj Hshort
           (rail_fence_short_text (str "abc") 5 Hge Hle Hunit Hshort))))).
Defined.

End RailFenceMore.

(** ** More on Columnar Transposition *)

Module TranspositionMore.
Import Transposition TranspositionFacts Rearrangement.

Lemma cellOf_fmap (f : Z → Z) (text : list Z) (n r c : nat) :
  cellOf (f <$> text) n r c = f <$> cellOf text n r c.
Proof. unfold cellOf. rewrite list_lookup_fmap. by destruct (text !! _). Qed.

Lemma columnsOf_fmap (f : Z → Z) (text : list Z) (n : nat) (ks : list keyEntry) :
  columnsOf (f <$> text) n ks = f <$> columnsOf text n ks.
Proof.
  unfold columnsOf, column. rewrite length_fmap, fmap_concat_lists, <- list_fmap_compose.
  f_equal. apply list_fmap_ext. intros _ k _. cbn.
  rewrite fmap_concat_lists, <- list_fmap_compose.
  f_equal. apply list_fmap_ext. intros _ r _. apply cellOf_fmap.
Qed.

Section WithRuntime.
Context {RT : Runtime}.

Lemma key_columns (key : list Z) :
  sanitizeKey key ≠ [] → 0 < length (sanitizeKey key).
Proof. destruct (sanitizeKey key); [done|cbn; lia]. Qed.

Lemma columnsOf_onto (cipherText key : list Z) :
  sanitizeKey key ≠ [] →
  ∃ t, columnsOf t (length (sanitizeKey key)) (keyOrder (sanitizeKey key)) = cipherText ∧
       t ≡ₚ cipherText.
Proof.
  intros Hkey%key_columns.
  assert (∀ t, columnsOf t (length (sanitizeKey key)) (keyOrder (sanitizeKey key)) ≡ₚ t)
    as Hperm by (intros t; apply columnsOf_Permutation; [done|apply keyOrder_indices]).
  apply (natural_onto (λ t, columnsOf t _ _)).
  - intros f t. apply columnsOf_fmap.
  - intros t. by rewrite Hperm.
  - intros t x. by rewrite Hperm.
Qed.

(** X16: Every string is a ciphertext: under a key with a letter, decryption
    returns on every string a rearrangement of it, and encrypting that gives
    the string back. *)
Theorem transposition_decrypt_encrypt (cipherText key : list Z) :
  sanitizeKey key ≠ [] →
  ∃ t, columnarTranspositionDecrypt cipherText key = Ok t ∧ t ≡ₚ cipherText ∧
       columnarTranspositionEncrypt t key = Ok cipherText.
Proof.
  intros Hkey. destruct (columnsOf_onto cipherText key Hkey) as (t & Himage & Hperm).
  exists t. split_and!; [|done|].
  - rewrite <- Himage. by apply decrypt_columns.
  - rewrite <- Himage. by apply encrypt_columns.
Qed.

(** X17: Both directions refuse a key without a letter A to Z, and nothing else:
    under any other key they return, whatever the text. *)
Theorem transposition_throws_iff (text key : list Z) :
  ((∃ e, columnarTranspositionEncrypt text key = Err e) ↔ sanitizeKey key = []) ∧
  ((∃ e, columnarTranspositionDecrypt text key = Err e) ↔ sanitizeKey key = []).
Proof.
  split; split.
  - intros [e He]. destruct (decide (sanitizeKey key = [])) as [|Hkey]; [done|].
    by rewrite encrypt_columns in He.
  - intros Hkey. unfold columnarTranspositionEncrypt.
    rewrite bool_decide_eq_true_2 by done. by eexists.
  - intros [e He]. destruct (decide (sanitizeKey key = [])) as [|Hkey]; [done|].
    destruct (columnsOf_onto text key Hkey) as (t & Himage & _).
    rewrite <- Himage, decrypt_columns in He by done. done.
  - intros Hkey. unfold columnarTranspositionDecrypt.
    rewrite bool_decide_eq_true_2 by done. by eexists.
Qed.

Lemma columnsOf_one (text : list Z) (a : Z) :
  columnsOf text 1 (keyOrder [a]) = text.
Proof.
  unfold columnsOf, column, keyOrder, cellOf. cbn [imap sortEntries foldr insertEntry].
  cbn [fmap list_fmap concat index]. rewrite app_nil_r.
  rewrite (list_fmap_ext _ (λ r, option_list (text !! r)) (seq 0 _))
    by (intros _ r _; do 2 f_equal; lia).
  rewrite (chunk_concat 1) by lia. apply take_ge.
  unfold ceilDiv. rewrite Nat.mod_1_r, Nat.div_1_r. done.
Qed.

(** X18: A key with one letter is no key: both directions return the text as it
    is. *)
Theorem transposition_one_letter_key (text key : list Z) :
  length (sanitizeKey key) = 1 →
  columnarTranspositionEncrypt text key = Ok text ∧
  columnarTranspositionDecrypt text key = Ok text.
Proof.
  intros Hone.
  destruct (sanitizeKey key) as [|a [|b rest]] eqn:Hkey; try done.
  assert (sanitizeKey key ≠ []) as Hne by (by rewrite Hkey).
  pose proof (encrypt_columns text key Hne) as Henc.
  pose proof (decrypt_columns text key Hne) as Hdec.
  rewrite Hkey in Henc, Hdec. cbn [length] in Henc, Hdec.
  rewrite columnsOf_one in Henc, Hdec. done.
Qed.

End WithRuntime.

Lemma transposition_decrypt_encrypt_witness :
  sanitizeKey (RT := asciiRuntime) (str "Zebra 1") ≠ [] ∧
  ∃ t, columnarTranspositionDecrypt (RT := asciiRuntime) (str "ATTACK AT DAWN") (str "Zebra 1")
         = Ok t ∧
       t ≡ₚ str "ATTACK AT DAWN" ∧
       columnarTranspositionEncrypt (RT := asciiRuntime) t (str "Zebra 1")
         = Ok (str "ATTACK AT DAWN").
Proof.
  assert (sanitizeKey (RT := asciiRuntime) (str "Zebra 1") ≠ []) as Hkey by (by vm_compute).
  split; [exact Hkey|].
  exact (transposition_decrypt_encrypt (RT := asciiRuntime)
           (str "ATTACK AT DAWN") (str "Zebra 1") Hkey).
Defined.

Lemma transposition_one_letter_key_witness :
  length (sanitizeKey (RT := asciiRuntime) (str "k9")) = 1 ∧
  columnarTranspositionEncrypt (RT := asciiRuntime) (str "ATTACK AT DAWN") (str "k9")
    = Ok (str "ATTACK AT DAWN") ∧
  columnarTranspositionDecrypt (RT := asciiRuntime) (str "ATTACK AT DAWN") (str "k9")
    = Ok (str "ATTACK AT DAWN").
Proof.
  split; [reflexivity|].
  exact (transposition_one_letter_key (RT := asciiRuntime)
           (str "ATTACK AT DAWN") (str "k9") eq_refl).
Defined.

End TranspositionMore.

(** ** The letters the caller counts *)

Module AppFacts.
Import Playfair PlayfairFacts PlayfairMore App.

Lemma replaceJ_stripNonAZ (s : list Z) :
  replaceJ (stripNonAZ s) = stripNonAZ (replaceJ s).
Proof.
  unfold replaceJ, stripNonAZ. induction s as [|c s IH]; [done|].
  cbn [map]. rewrite !filter_cons.
  destruct (Z.eqb_spec c 74) as [->|Hc].
  - rewrite !decide_True by done. cbn [map]. by rewrite IH.
  - destruct (decide (isAZ c)); [|done]. cbn [map].
    rewrite IH. by destruct (Z.eqb_spec c 74).
Qed.

Section WithRuntime.
Context {RT : Runtime}.

Lemma charOnly_sanitize (text : list Z) : charOnly text = sanitize text.
Proof. apply replaceJ_stripNonAZ. Qed.

(** X19: The letters [validateInput] counts on a string are the letters the
    cipher decrypts of it, though the one strips before it replaces J and the
    other after; so a Playfair decryption of the string returns exactly when
    that count is even and not zero. *)
Theorem playfair_decrypt_returns_iff (key text : list Z) :
  (∃ out, playfairCipher text key Decrypt = Ok out) ↔
  charOnly text ≠ [] ∧ length (charOnly text) mod 2 = 0.
Proof.
  rewrite charOnly_sanitize. split.
  - intros [out Hout]. split.
    + intros Hnone.
      destruct (playfair_fails key text Decrypt (or_introl Hnone)) as [e He].
      by rewrite He in Hout.
    + destruct (decide (length (sanitize text) mod 2 = 0)) as [|Hodd]; [done|].
      destruct (playfair_fails key text Decrypt (or_intror (conj eq_refl Hodd)))
        as [e He].
      by rewrite He in Hout.
  - intros [Hne Heven].
    destruct (playfair_returns key text Decrypt Hne (λ _, Heven)) as (_ & out & _ & Hout & _).
    by exists out.
Qed.

End WithRuntime.
End AppFacts.
